(** * The compilation context of RimmerM/x: arena, identifier and operator tables

    A shallow embedding of [src/code/compiler/context.cpp] and of the
    instruction classification of [src/code/resolve/inst.h].

    Conventions.
    - Pointers and [Size] values are numbers in [N]; [nullptr] is [0].
      [Size] arithmetic is taken without overflow (its width is fixed by
      [util/types.h], which is not among the sources); every cast to [U32]
      the code performs is written out as a reduction modulo [2^32].
      [allocWord] is [Arena::alloc] with pointer sums of a given width,
      and [noWrap] holds of the runs on which it agrees with [alloc].
    - Memory is a store of byte cells and of [U32] cells, both addressed by
      byte address.  The code never reads back as bytes what it wrote as
      [U32] (or the converse), so the byte order of a [U32] stays out of
      the model.
    - The functions thread the memory and the [Context] explicitly. *)

From Stdlib Require Import NArith Lia List Bool.
From Stdlib Require Import Strings.Byte.
From stdpp Require Import base option list gmap.

Local Open Scope N_scope.

(** ** Machine data *)

Definition Ptr := N.
Definition Size := N.
Definition U32 := N.
Definition U16 := N.
Definition Id := U32.

Definition nullptr : Ptr := 0.

(** The cast [(U32)x]. *)
Definition u32 (x : N) : U32 := x mod 2 ^ 32.

(** [sizeof(U32)]. *)
Definition sizeofU32 : N := 4.

Record Mem := {
  bytes : Ptr -> byte;
  words : Ptr -> U32
}.

(** [p[i]] for a [char*]. *)
Definition loadByte (m : Mem) (p : Ptr) : byte := bytes m p.

(** The [n] bytes found at [p]. *)
Definition readBytes (m : Mem) (p : Ptr) (n : Size) : list byte :=
  map (fun i => bytes m (p + N.of_nat i)) (seq 0 (N.to_nat n)).

(** [memcpy(dst, src, n)]. *)
Definition memcpy (m : Mem) (dst src : Ptr) (n : Size) : Mem :=
  {| bytes := fun a =>
       if (dst <=? a) && (a <? dst + n) then bytes m (src + (a - dst))
       else bytes m a;
     words := words m |}.

(** A single byte store [p[0] = b], as a caller does to its own buffer. *)
Definition storeByte (m : Mem) (p : Ptr) (b : byte) : Mem :=
  {| bytes := fun a => if a =? p then b else bytes m a;
     words := words m |}.

(** Writing a byte string at [p]. *)
Fixpoint storeBytes (m : Mem) (p : Ptr) (bs : list byte) : Mem :=
  match bs with
  | [] => m
  | b :: bs' => storeBytes (storeByte m p b) (p + 1) bs'
  end.

(** [((U32* )p)[i] = v] and its read. *)
Definition storeU32 (m : Mem) (p : Ptr) (i : N) (v : U32) : Mem :=
  {| bytes := bytes m;
     words := fun a => if a =? p + sizeofU32 * i then v else words m a |}.

Definition loadU32 (m : Mem) (p : Ptr) (i : N) : U32 :=
  words m (p + sizeofU32 * i).

(** The [n] first elements of the [U32] array at [p]. *)
Definition readU32s (m : Mem) (p : Ptr) (n : nat) : list U32 :=
  map (fun i => loadU32 m p (N.of_nat i)) (seq 0 n).

(** ** The hasher

    [Hasher] is declared outside the sources at hand; the code uses its
    default constructor, [addByte], [addBytes] and [get].  It is taken as
    an interface: nothing is assumed of the hash function. *)

Class Hasher := {
  HashState : Type;
  hasherNew : HashState;
  addByte : HashState -> byte -> HashState;
  addBytes : HashState -> list byte -> HashState;
  hashGet : HashState -> U32
}.

(** The allocator under the arena: the chunk size constant of [context.h]
    and the address [malloc] returns for the arena's [n]-th chunk. *)

Class Malloc := {
  kChunkSize : Size;
  malloc : nat -> Ptr
}.

(** [malloc] hands out chunks that do not overlap. *)
Definition chunksDisjoint {heap : Malloc} : Prop :=
  forall i j : nat, i <> j ->
    malloc i + kChunkSize <= malloc j \/ malloc j + kChunkSize <= malloc i.

(** ** Arena *)

Record Arena := {
  buffer : Ptr;
  max : Ptr;
  buffers : list Ptr
}.

(** Modelled from the spec: the state of a new [Arena] ([context.h] is not
    among the sources): no chunk yet and both pointers null, the state the
    destructor also leaves behind. *)
Definition newArena : Arena :=
  {| buffer := nullptr; max := nullptr; buffers := [] |}.

Section ArenaAlloc.
Context {heap : Malloc}.

Definition alloc (a : Arena) (size : Size) : Ptr * Arena :=
  let a1 :=
    if max a <? buffer a + size then
      let b := malloc (length (buffers a)) in
      {| buffer := b; max := b + kChunkSize; buffers := buffers a ++ [b] |}
    else a in
  let it := buffer a1 in
  (it, {| buffer := buffer a1 + size; max := max a1; buffers := buffers a1 |}).

(** [N] successive calls; each returned pointer is paired with the size
    that was asked for. *)
Fixpoint allocs (a : Arena) (sizes : list Size) : list (Ptr * Size) * Arena :=
  match sizes with
  | [] => ([], a)
  | s :: rest =>
      let '(p, a1) := alloc a s in
      let '(rs, a2) := allocs a1 rest in
      ((p, s) :: rs, a2)
  end.

(** The chunk the arena got from its [j]-th [malloc]. *)
Definition inChunk (j : nat) (a : Ptr) : Prop :=
  malloc j <= a < malloc j + kChunkSize.

Definition inChunkb (j : nat) (a : Ptr) : bool :=
  (malloc j <=? a) && (a <? malloc j + kChunkSize).

(** Bytes handed out from chunk [j]: the sizes of the allocations whose
    pointer lies in it. *)
Definition chunkBytes (j : nat) (rs : list (Ptr * Size)) : N :=
  fold_right (fun r acc => (if inChunkb j (fst r) then snd r else 0) + acc) 0 rs.
End ArenaAlloc.

(** Byte ranges [[p, p + s)]. *)
Definition inRange (r : Ptr * Size) (a : Ptr) : Prop :=
  fst r <= a < fst r + snd r.

Definition disjointRanges (r1 r2 : Ptr * Size) : Prop :=
  forall a, ~ (inRange r1 a /\ inRange r2 a).

Definition pairwiseDisjoint (rs : list (Ptr * Size)) : Prop :=
  forall (i j : nat) r1 r2, i <> j ->
    rs !! i = Some r1 -> rs !! j = Some r2 -> disjointRanges r1 r2.

(** What holds of an arena and of the ranges it has returned so far, as
    long as no request exceeds a chunk: the arena's chunks are the first
    results of [malloc]; [buffer] and [max] delimit the free part of the
    last chunk; every non-empty range lies inside one chunk, below [buffer]
    when that chunk is the last one; the bytes handed out from a chunk fit
    in it. *)
Record arenaInv {heap : Malloc} (a : Arena) (rs : list (Ptr * Size)) : Prop := {
  inv_buffers : buffers a = map malloc (seq 0 (length (buffers a)));
  inv_fresh : length (buffers a) = 0%nat -> buffer a = 0 /\ max a = 0;
  inv_current : forall k, length (buffers a) = S k ->
      max a = malloc k + kChunkSize /\ malloc k <= buffer a <= max a;
  inv_ranges : forall r, In r rs ->
      snd r = 0 \/
      exists j, (j < length (buffers a))%nat /\
        malloc j <= fst r /\ fst r + snd r <= malloc j + kChunkSize /\
        (S j = length (buffers a) -> fst r + snd r <= buffer a);
  inv_total : forall j,
      chunkBytes j rs <= kChunkSize /\
      (S j = length (buffers a) -> malloc j + chunkBytes j rs <= buffer a) /\
      ((length (buffers a) <= j)%nat -> chunkBytes j rs = 0)
}.

(** ** Identifiers and the context *)

Inductive Assoc := Left | Right.

Record OpProperties := {
  precedence : U16;
  associativity : Assoc
}.

Record Identifier := {
  text : Ptr;
  textLength : U32;
  segmentCount : U32;
  segments : Ptr;
  segmentHashes : Ptr;
  segmentHash : U32
}.

(** Modelled from the spec: the [Map] container of [context.h] (not among
    the sources), a finite map from [Id]: [add] and [operator[]=] bind the
    key to the new value (an existing binding is replaced: last insertion
    wins), [get] and [operator[]] look the key up. *)
Record Context := {
  stringArena : Arena;
  identifiers : gmap Id Identifier;
  ops : gmap Id OpProperties
}.

(** Modelled from the spec: a new [Context]: empty tables and a new arena. *)
Definition newContext : Context :=
  {| stringArena := newArena; identifiers := ∅; ops := ∅ |}.

Definition dot : byte := "."%byte.

Section ContextOps.
Context {hasher : Hasher} {heap : Malloc}.

(** The value of a declared, not yet assigned [Identifier id;]: the fields
    a function does not assign keep what this holds. *)
Variable blankIdentifier : Identifier.

Definition addOp (ctx : Context) (op : Id) (prec : U16) (assoc : Assoc) : Context :=
  let prop := {| precedence := prec; associativity := assoc |} in
  {| stringArena := stringArena ctx;
     identifiers := identifiers ctx;
     ops := <[op := prop]> (ops ctx) |}.

Definition findOp (ctx : Context) (op : Id) : OpProperties :=
  match ops ctx !! op with
  | Some res => res
  | None => {| precedence := 9; associativity := Left |}
  end.

Definition addIdentifier (ctx : Context) (m : Mem) (id : Identifier) : Id * Context :=
  let i :=
    if segmentCount id =? 1 then segmentHash id
    else hashGet (addBytes hasherNew (readBytes m (text id) (textLength id))) in
  (i, {| stringArena := stringArena ctx;
         identifiers := <[i := id]> (identifiers ctx);
         ops := ops ctx |}).

Definition find (ctx : Context) (id : Id) : option Identifier :=
  identifiers ctx !! id.

Definition addUnqualifiedName (ctx : Context) (m : Mem) (chars : Ptr) (count : Size)
  : Id * Context :=
  let hash := addBytes hasherNew (readBytes m chars count) in
  let id :=
    {| text := chars;
       textLength := u32 count;
       segmentCount := 1;
       segments := nullptr;
       segmentHashes := segmentHashes blankIdentifier;
       segmentHash := hashGet hash |} in
  addIdentifier ctx m id.

(** The inner loop [while(p < max && *p != '.')]: it runs at most
    [max - p] times, which is the fuel it is given.  (The loop also counts
    [segmentLength], which nothing reads.) *)
Fixpoint scanSegment (fuel : nat) (m : Mem) (p max : Ptr) (hash : HashState)
  : Ptr * HashState :=
  match fuel with
  | O => (p, hash)
  | S fuel' =>
      if (p <? max) && negb (Byte.eqb (loadByte m p) dot)
      then scanSegment fuel' m (p + 1) max (addByte hash (loadByte m p))
      else (p, hash)
  end.

(** The loop [for(U32 i = 0; i < segmentCount; i++)].  The counter is a
    [U32] and wraps; the loop is left only when [i] reaches
    [segmentCount], so it is run with [segmentCount + 1] tests of its
    condition and has no result when these do not suffice. *)
Fixpoint segmentLoop (fuel : nat) (i : U32) (segmentCount : Size)
    (segs hashes chars max : Ptr) (m : Mem) (p : Ptr) : option Mem :=
  match fuel with
  | O => None
  | S fuel' =>
      if i <? segmentCount then
        let m1 := storeU32 m segs i (u32 (p - chars)) in
        let '(p1, hash) := scanSegment (N.to_nat (max - p)) m1 p max hasherNew in
        let m2 := storeU32 m1 hashes i (hashGet hash) in
        segmentLoop fuel' (u32 (i + 1)) segmentCount segs hashes chars max m2 p1
      else Some m
  end.

Definition addQualifiedName3 (ctx : Context) (m : Mem) (chars : Ptr)
    (count segmentCount : Size) : option (Id * Context * Mem) :=
  if segmentCount <=? 1 then
    let '(text, arena1) := alloc (stringArena ctx) count in
    let m1 := memcpy m text chars count in
    let hash := addBytes hasherNew (readBytes m1 chars count) in
    let id :=
      {| text := text;
         textLength := u32 count;
         segmentCount := 1;
         segments := nullptr;
         segmentHashes := segmentHashes blankIdentifier;
         segmentHash := hashGet hash |} in
    let ctx1 :=
      {| stringArena := arena1; identifiers := identifiers ctx; ops := ops ctx |} in
    let '(i, ctx2) := addIdentifier ctx1 m1 id in
    Some (i, ctx2, m1)
  else
    let '(data, arena1) :=
      alloc (stringArena ctx) (count + 2 * (segmentCount * sizeofU32)) in
    let segs := data in
    let hashes := data + sizeofU32 * segmentCount in
    let name := data + sizeofU32 * (segmentCount * 2) in
    let m1 := memcpy m name chars count in
    match segmentLoop (S (N.to_nat segmentCount)) 0 segmentCount
            segs hashes chars (chars + count) m1 chars with
    | None => None
    | Some m2 =>
        let id :=
          {| text := name;
             textLength := u32 count;
             segmentCount := u32 segmentCount;
             segments := segs;
             segmentHashes := hashes;
             segmentHash := segmentHash blankIdentifier |} in
        let ctx1 :=
          {| stringArena := arena1; identifiers := identifiers ctx; ops := ops ctx |} in
        let '(i, ctx2) := addIdentifier ctx1 m2 id in
        Some (i, ctx2, m2)
    end.

(** The loop [for(Size i = 0; i < count; i++)] of the two-argument
    overload, with [n] iterations left. *)
Fixpoint countSegments (n : nat) (m : Mem) (chars : Ptr) (i segmentCount : Size) : Size :=
  match n with
  | O => segmentCount
  | S n' =>
      countSegments n' m chars (i + 1)
        (if Byte.eqb (loadByte m (chars + i)) dot then segmentCount + 1 else segmentCount)
  end.

Definition addQualifiedName2 (ctx : Context) (m : Mem) (chars : Ptr) (count : Size)
  : option (Id * Context * Mem) :=
  let segmentCount := countSegments (N.to_nat count) m chars 0 1 in
  addQualifiedName3 ctx m chars count segmentCount.
End ContextOps.


(** What the interning functions compute, named for the statements below. *)

Section Hashes.
Context {hasher : Hasher}.

(** The hash of a byte range taken in one [addBytes] call: a fresh hasher,
    [addBytes], [get]. *)
Definition hashOf (bs : list byte) : U32 :=
  hashGet (addBytes hasherNew bs).

(** The hash of a byte range fed byte by byte to a fresh hasher, as the
    segment loop does. *)
Definition hashBytewise (bs : list byte) : U32 :=
  hashGet (fold_left addByte bs hasherNew).
End Hashes.

(** The bytes of a name that come before its first ['.']. *)
Fixpoint firstSegment (bs : list byte) : list byte :=
  match bs with
  | [] => []
  | b :: bs' => if Byte.eqb b dot then [] else b :: firstSegment bs'
  end.

(** The size [addQualifiedName] asks of the string arena. *)
Definition requestSize (count segmentCount : Size) : Size :=
  if segmentCount <=? 1 then count
  else count + 2 * (segmentCount * sizeofU32).

(** The block [stringArena.alloc] returns to [addQualifiedName]. *)
Definition nameBlock {heap : Malloc} (ctx : Context) (count segmentCount : Size) : Ptr * Size :=
  (fst (alloc (stringArena ctx) (requestSize count segmentCount)),
   requestSize count segmentCount).

(** Number of ['.'] bytes in a byte string. *)
Definition dots (bs : list byte) : nat :=
  length (filter (fun b => Byte.eqb b dot = true) bs).

(** ** Sequences of calls on a context *)

Inductive Call :=
| CallAddOp (op : Id) (prec : U16) (assoc : Assoc)
| CallAddUnqualifiedName (chars : Ptr) (count : Size)
| CallAddQualifiedName3 (chars : Ptr) (count segmentCount : Size)
| CallAddQualifiedName2 (chars : Ptr) (count : Size)
| CallAddIdentifier (id : Identifier)
| CallStoreByte (p : Ptr) (b : byte).

Section Calls.
Context {hasher : Hasher} {heap : Malloc}.
Variable blankIdentifier : Identifier.

Definition call (st : Context * Mem) (c : Call) : option (Context * Mem) :=
  let '(ctx, m) := st in
  match c with
  | CallAddOp op prec assoc => Some (addOp ctx op prec assoc, m)
  | CallAddUnqualifiedName chars count =>
      Some (snd (addUnqualifiedName blankIdentifier ctx m chars count), m)
  | CallAddQualifiedName3 chars count sc =>
      match addQualifiedName3 blankIdentifier ctx m chars count sc with
      | Some (_, ctx1, m1) => Some (ctx1, m1)
      | None => None
      end
  | CallAddQualifiedName2 chars count =>
      match addQualifiedName2 blankIdentifier ctx m chars count with
      | Some (_, ctx1, m1) => Some (ctx1, m1)
      | None => None
      end
  | CallAddIdentifier id => Some (snd (addIdentifier ctx m id), m)
  | CallStoreByte p b => Some (ctx, storeByte m p b)
  end.

Fixpoint calls (st : Context * Mem) (cs : list Call) : option (Context * Mem) :=
  match cs with
  | [] => Some st
  | c :: cs' =>
      match call st c with
      | Some st1 => calls st1 cs'
      | None => None
      end
  end.
End Calls.

(** [op] is the operator of no [addOp] call of the sequence. *)
Definition neverAdded (op : Id) (cs : list Call) : Prop :=
  forall prec assoc, ~ In (CallAddOp op prec assoc) cs.

(** ** Instruction kinds ([resolve/inst.h]) *)

Module Value.

Inductive Kind :=
| Arg
| ConstInt | ConstFloat | ConstString
| FirstInst
| InstTrunc | InstFTrunc | InstZExt | InstSExt | InstFExt
| InstAdd | InstSub | InstMul | InstDiv | InstIDiv | InstRem | InstIRem
| InstFAdd | InstFSub | InstFMul | InstFDiv
| InstICmp | InstFCmp
| InstShl | InstShr | InstSar | InstAnd | InstOr | InstXor
| InstRecord | InstTup | InstFun
| InstCall | InstCallGen | InstCallDyn | InstCallDynGen | InstCallForeign
| InstJe | InstJmp | InstRet | InstPhi.

Definition FirstConst : Kind := ConstInt.
Definition LastConst : Kind := ConstString.

(** The integer value of each enumerator. *)
Definition value (k : Kind) : N :=
  match k with
  | Arg => 0
  | ConstInt => 1 | ConstFloat => 2 | ConstString => 3
  | FirstInst => 4
  | InstTrunc => 5 | InstFTrunc => 6 | InstZExt => 7 | InstSExt => 8 | InstFExt => 9
  | InstAdd => 10 | InstSub => 11 | InstMul => 12 | InstDiv => 13 | InstIDiv => 14
  | InstRem => 15 | InstIRem => 16
  | InstFAdd => 17 | InstFSub => 18 | InstFMul => 19 | InstFDiv => 20
  | InstICmp => 21 | InstFCmp => 22
  | InstShl => 23 | InstShr => 24 | InstSar => 25
  | InstAnd => 26 | InstOr => 27 | InstXor => 28
  | InstRecord => 29 | InstTup => 30 | InstFun => 31
  | InstCall => 32 | InstCallGen => 33 | InstCallDyn => 34 | InstCallDynGen => 35
  | InstCallForeign => 36
  | InstJe => 37 | InstJmp => 38 | InstRet => 39 | InstPhi => 40
  end.

End Value.

(** [kind == K] compares enumerator values. *)
Definition kindEq (a b : Value.Kind) : bool := Value.value a =? Value.value b.

Definition isTerminating (kind : Value.Kind) : bool :=
  kindEq kind Value.InstRet || kindEq kind Value.InstJe || kindEq kind Value.InstJmp.

(** ** Sample instances

    Concrete stand-ins for what the sources leave open, used only to run
    the model on explicit inputs. *)

(** A 32-bit FNV-1a accumulator. *)
Definition fnvStep (h : N) (b : byte) : N :=
  (N.lxor h (Byte.to_N b) * 16777619) mod 2 ^ 32.

#[local] Instance fnv1a : Hasher := {|
  HashState := N;
  hasherNew := 2166136261;
  addByte := fnvStep;
  addBytes := fun h bs => fold_left fnvStep bs h;
  hashGet := fun h => h
|}.

(** Chunks of 4096 bytes laid out one after the other from address 65536. *)
#[local] Instance packedChunks : Malloc := {|
  kChunkSize := 4096;
  malloc := fun n => 65536 + 4096 * N.of_nat n
|}.

Definition zeroMem : Mem :=
  {| bytes := fun _ => x00; words := fun _ => 0 |}.

Definition zeroIdentifier : Identifier :=
  {| text := 0; textLength := 0; segmentCount := 0;
     segments := 0; segmentHashes := 0; segmentHash := 0 |}.

(** The bytes of ["a.bc.def"]. *)
Definition abcdef : list byte :=
  ["a"; "."; "b"; "c"; "."; "d"; "e"; "f"]%byte.

(** ** Arena teardown *)

(** [Arena::~Arena]: the pointers passed to [free], in the order of the
    calls, and the state the arena is left in ([buffers.destroy()] leaves
    the chunk list empty). *)
Definition destroyArena (a : Arena) : list Ptr * Arena :=
  (buffers a, {| buffer := nullptr; max := nullptr; buffers := [] |}).

(** The pointers [malloc] returns during a run of [alloc] calls, in the
    order of the calls: a call asks for a chunk exactly when its request
    does not fit. *)
Fixpoint mallocCalls {heap : Malloc} (a : Arena) (sizes : list Size) : list Ptr :=
  match sizes with
  | [] => []
  | s :: rest =>
      (if max a <? buffer a + s then [malloc (length (buffers a))] else [])
      ++ mallocCalls (snd (alloc a s)) rest
  end.

(** Sum of the sizes asked for. *)
Definition totalSize (sizes : list Size) : N := fold_right N.add 0 sizes.

(** Ranges of the given sizes laid back to back from [p]. *)
Fixpoint packed (p : Ptr) (sizes : list Size) : list (Ptr * Size) :=
  match sizes with
  | [] => []
  | s :: rest => (p, s) :: packed (p + s) rest
  end.

(** ** The arena with pointers of a given width

    [alloc] above forms its pointer sums in [N], where they never wrap.
    With pointers and [Size] of [w] bits each sum of [Arena::alloc] is
    reduced modulo [2^w]: [buffer + size] in the test, [buffer + kChunkSize]
    for [max], and [buffer += size].  [allocWord] is [Arena::alloc] with
    that written out, and [noWrap] says of a run of calls that none of its
    sums reaches [2^w]; on such a run both functions agree. *)

Section ArenaWords.
Context {heap : Malloc}.
Variable w : N.

Definition wrapWord (x : N) : N := x mod 2 ^ w.

Definition allocWord (a : Arena) (size : Size) : Ptr * Arena :=
  let a1 :=
    if max a <? wrapWord (buffer a + size) then
      let b := malloc (length (buffers a)) in
      {| buffer := b; max := wrapWord (b + kChunkSize); buffers := buffers a ++ [b] |}
    else a in
  let it := buffer a1 in
  (it, {| buffer := wrapWord (buffer a1 + size); max := max a1; buffers := buffers a1 |}).

Fixpoint allocsWord (a : Arena) (sizes : list Size) : list (Ptr * Size) * Arena :=
  match sizes with
  | [] => ([], a)
  | s :: rest =>
      let '(p, a1) := allocWord a s in
      let '(rs, a2) := allocsWord a1 rest in
      ((p, s) :: rs, a2)
  end.

(** No sum of the call [alloc(s)] in state [a] reaches [2^w]: the sum
    [buffer + size] of the test and of the bump and, when a chunk is
    opened, the sums formed from the new chunk's address. *)
Definition noWrapStep (a : Arena) (s : Size) : Prop :=
  buffer a + s < 2 ^ w /\
  (max a < buffer a + s ->
   malloc (length (buffers a)) + kChunkSize < 2 ^ w /\
   malloc (length (buffers a)) + s < 2 ^ w).

Fixpoint noWrap (a : Arena) (sizes : list Size) : Prop :=
  match sizes with
  | [] => True
  | s :: rest => noWrapStep a s /\ noWrap (snd (allocWord a s)) rest
  end.
End ArenaWords.

(** The requests of at most [kChunkSize] bytes among the results of a run. *)
Definition inSize {heap : Malloc} (rs : list (Ptr * Size)) : list (Ptr * Size) :=
  List.filter (fun r => snd r <=? kChunkSize) rs.

(** Any two ranges of the list that satisfy [P] are disjoint. *)
Definition pairwiseDisjointOn (P : Ptr * Size -> Prop) (rs : list (Ptr * Size)) : Prop :=
  forall (i j : nat) r1 r2, i <> j ->
    rs !! i = Some r1 -> rs !! j = Some r2 -> P r1 -> P r2 -> disjointRanges r1 r2.

(** What holds of an arena and of the ranges it has returned whatever the
    sizes asked for: as [arenaInv], but [buffer] may lie beyond [max]
    (after a request larger than a chunk), and only the ranges of requests
    of at most [kChunkSize] bytes are located and counted. *)
Record arenaInvAny {heap : Malloc} (a : Arena) (rs : list (Ptr * Size)) : Prop := {
  any_buffers : buffers a = map malloc (seq 0 (length (buffers a)));
  any_fresh : length (buffers a) = 0%nat -> buffer a = 0 /\ max a = 0;
  any_current : forall k, length (buffers a) = S k ->
      max a = malloc k + kChunkSize /\ malloc k <= buffer a;
  any_ranges : forall r, In r rs -> snd r <= kChunkSize ->
      snd r = 0 \/
      exists j, (j < length (buffers a))%nat /\
        malloc j <= fst r /\ fst r + snd r <= malloc j + kChunkSize /\
        (S j = length (buffers a) -> fst r + snd r <= buffer a);
  any_total : forall j,
      chunkBytes j (inSize rs) <= kChunkSize /\
      (S j = length (buffers a) -> malloc j + chunkBytes j (inSize rs) <= buffer a) /\
      ((length (buffers a) <= j)%nat -> chunkBytes j (inSize rs) = 0)
}.

(** * Proofs *)

(** ** Memory *)

Lemma readBytes_length m p n : length (readBytes m p n) = N.to_nat n.
Proof. unfold readBytes. now rewrite length_map, length_seq. Qed.

Lemma readBytes_ext m1 m2 p n :
  (forall a, p <= a < p + n -> bytes m1 a = bytes m2 a) ->
  readBytes m1 p n = readBytes m2 p n.
Proof.
  intros Hagree. unfold readBytes. apply map_ext_in.
  intros i Hi. apply in_seq in Hi. apply Hagree. lia.
Qed.

Lemma readBytes_memcpy m dst src n :
  readBytes (memcpy m dst src n) dst n = readBytes m src n.
Proof.
  unfold readBytes. apply map_ext_in. intros i Hi. apply in_seq in Hi.
  cbn [memcpy bytes].
  replace ((dst <=? dst + N.of_nat i) && (dst + N.of_nat i <? dst + n)) with true.
  - f_equal. lia.
  - symmetry. apply andb_true_iff. split; [apply N.leb_le | apply N.ltb_lt]; lia.
Qed.

Lemma bytes_memcpy_outside m dst src n a :
  ~ (dst <= a < dst + n) -> bytes (memcpy m dst src n) a = bytes m a.
Proof.
  intros Hout. cbn [memcpy bytes].
  destruct (N.leb_spec dst a); destruct (N.ltb_spec a (dst + n)); cbn; try reflexivity.
  lia.
Qed.

(** ** Arena *)

Lemma chunkBytes_app {heap : Malloc} j rs1 rs2 :
  chunkBytes j (rs1 ++ rs2) = chunkBytes j rs1 + chunkBytes j rs2.
Proof.
  unfold chunkBytes. induction rs1 as [|r rs1 IH]; cbn.
  - reflexivity.
  - rewrite IH. lia.
Qed.

Lemma allocs_app {heap : Malloc} a ss1 ss2 :
  allocs a (ss1 ++ ss2) =
    let '(rs1, a1) := allocs a ss1 in
    let '(rs2, a2) := allocs a1 ss2 in
    (rs1 ++ rs2, a2).
Proof.
  revert a. induction ss1 as [|s ss1 IH]; intros a; cbn -[alloc].
  - destruct (allocs a ss2); reflexivity.
  - destruct (alloc a s) as [p a1]. rewrite IH.
    destruct (allocs a1 ss1) as [rs1 a2]. destruct (allocs a2 ss2); reflexivity.
Qed.

Lemma pairwiseDisjoint_snoc rs r :
  pairwiseDisjoint rs ->
  (forall r', In r' rs -> disjointRanges r' r) ->
  pairwiseDisjoint (rs ++ [r]).
Proof.
  intros Hrs Hr i j r1 r2 Hij H1 H2.
  assert (Hsym : forall x y, disjointRanges x y -> disjointRanges y x).
  { intros x y Hxy a [Hy Hx]. apply (Hxy a). split; assumption. }
  destruct (decide (i < length rs)%nat) as [Hi|Hi];
  destruct (decide (j < length rs)%nat) as [Hj|Hj].
  - rewrite lookup_app_l in H1, H2 by assumption. eapply Hrs; eassumption.
  - rewrite lookup_app_l in H1 by assumption.
    rewrite lookup_app_r in H2 by lia.
    destruct (j - length rs)%nat eqn:E; cbn in H2; [|discriminate].
    inversion H2; subst r2. apply Hr. apply list_elem_of_In.
    eapply list_elem_of_lookup_2. eassumption.
  - rewrite lookup_app_l in H2 by assumption.
    rewrite lookup_app_r in H1 by lia.
    destruct (i - length rs)%nat eqn:E; cbn in H1; [|discriminate].
    inversion H1; subst r1. apply Hsym. apply Hr. apply list_elem_of_In.
    eapply list_elem_of_lookup_2. eassumption.
  - rewrite lookup_app_r in H1 by lia. rewrite lookup_app_r in H2 by lia.
    destruct (i - length rs)%nat eqn:E1; cbn in H1; [|discriminate].
    destruct (j - length rs)%nat eqn:E2; cbn in H2; [|discriminate].
    lia.
Qed.

Section ArenaInvariant.
Context {heap : Malloc}.
Hypothesis chunks : chunksDisjoint.

Lemma arenaInv_new : arenaInv newArena [].
Proof.
  split; cbn.
  - reflexivity.
  - intros _. split; reflexivity.
  - intros k Hk. discriminate.
  - intros r [].
  - intros j. split; [lia|]. split; [intros Hk; discriminate | reflexivity].
Qed.

Lemma inChunkb_true j a : inChunkb j a = true <-> inChunk j a.
Proof.
  unfold inChunkb, inChunk. rewrite andb_true_iff, N.leb_le, N.ltb_lt. tauto.
Qed.

Lemma chunk_other i j a : i <> j -> inChunk i a -> ~ inChunk j a.
Proof.
  intros Hij Hi Hj. unfold inChunk in *. destruct (chunks i j Hij); lia.
Qed.

Lemma chunkBytes_one j p s :
  chunkBytes j [(p, s)] = if inChunkb j p then s else 0.
Proof. unfold chunkBytes. cbn. lia. Qed.

Lemma alloc_step a rs s :
  arenaInv a rs -> s <= kChunkSize ->
  arenaInv (snd (alloc a s)) (rs ++ [(fst (alloc a s), s)]) /\
  (forall r, In r rs -> disjointRanges r (fst (alloc a s), s)).
Proof.
  intros [Hbufs Hfresh Hcur Hranges Htotal] Hs.
  unfold alloc. destruct (N.ltb_spec (max a) (buffer a + s)) as [Hnew|Hfit]; cbn [fst snd buffer max buffers].
  - (* a new chunk *)
    set (n := length (buffers a)) in *.
    assert (Hlen : length (buffers a ++ [malloc n]) = S n).
    { rewrite length_app. cbn. lia. }
    split.
    + split; cbn [buffer max buffers]; rewrite ?Hlen.
      * rewrite seq_S, map_app. cbn. now rewrite <- Hbufs.
      * discriminate.
      * intros k Hk. injection Hk as <-. lia.
      * intros r Hr. apply in_app_or in Hr. destruct Hr as [Hr|[<-|[]]].
        -- destruct (Hranges r Hr) as [Hz|(j & Hj & Hlo & Hhi & _)]; [now left|].
           right. exists j. repeat split; try lia.
        -- cbn. right. exists n. repeat split; lia.
      * intros j. rewrite chunkBytes_app, chunkBytes_one.
        destruct (Htotal j) as (Hle & Hlast & Hnone).
        destruct (decide (j = n)) as [->|Hjn].
        -- rewrite Hnone by lia. destruct (inChunkb n (malloc n)); repeat split; lia.
        -- replace (inChunkb j (malloc n)) with false.
           ++ repeat split; lia.
           ++ symmetry. apply not_true_is_false. rewrite inChunkb_true.
              unfold inChunk. destruct (chunks j n Hjn); lia.
    + intros r Hr a0 [Hin1 Hin2]. unfold inRange in *. cbn [fst snd] in *.
      destruct (Hranges r Hr) as [Hz|(j & Hj & Hlo & Hhi & _)]; [lia|].
      assert (Hjn : j <> n) by lia.
      destruct (chunks j n Hjn); lia.
  - (* the current chunk *)
    destruct a as [buf mx bufs]; cbn [buffer max buffers] in *.
    split.
    + split; cbn [buffer max buffers].
      * assumption.
      * intros Hn. destruct (Hfresh Hn) as [-> ->]. split; lia.
      * intros k Hk. destruct (Hcur k Hk). split; lia.
      * intros r Hr. apply in_app_or in Hr. destruct Hr as [Hr|[<-|[]]].
        -- destruct (Hranges r Hr) as [Hz|(j & Hj & Hlo & Hhi & Hl)]; [now left|].
           right. exists j. repeat split; lia.
        -- cbn [fst snd]. destruct (length bufs) as [|k] eqn:Hn.
           ++ left. destruct (Hfresh eq_refl). lia.
           ++ destruct (Hcur k eq_refl) as [Hmx Hbuf].
              right. exists k. repeat split; try lia.
      * intros j. rewrite chunkBytes_app, chunkBytes_one.
        destruct (Htotal j) as (Hle & Hlast & Hnone).
        destruct (N.eq_dec s 0) as [->|Hs0].
        { replace (if inChunkb j buf then 0 else 0) with 0 by (destruct (inChunkb j buf); reflexivity).
          rewrite !N.add_0_r. repeat split; try assumption. }
        destruct (length bufs) as [|k] eqn:Hn.
        { destruct (Hfresh eq_refl). lia. }
        destruct (Hcur k eq_refl) as [Hmx Hbuf].
        assert (Hk : inChunk k buf) by (unfold inChunk; lia).
        destruct (decide (j = k)) as [->|Hjk].
        -- replace (inChunkb k buf) with true by (symmetry; now apply inChunkb_true).
           specialize (Hlast eq_refl). repeat split; try lia.
        -- replace (inChunkb j buf) with false.
           ++ repeat split; lia.
           ++ symmetry. apply not_true_is_false. rewrite inChunkb_true.
              apply (chunk_other k j); auto.
    + intros r Hr a0 [Hin1 Hin2]. unfold inRange in *. cbn [fst snd] in *.
      destruct (Hranges r Hr) as [Hz|(j & Hj & Hlo & Hhi & Hl)]; [lia|].
      destruct (length bufs) as [|k] eqn:Hn; [lia|].
      destruct (Hcur k eq_refl) as [Hmx Hbuf].
      destruct (decide (j = k)) as [->|Hjk].
      * specialize (Hl eq_refl). lia.
      * destruct (chunks j k Hjk); lia.
Qed.

Lemma allocs_inv sizes :
  Forall (fun s => s <= kChunkSize) sizes ->
  arenaInv (snd (allocs newArena sizes)) (fst (allocs newArena sizes)) /\
  pairwiseDisjoint (fst (allocs newArena sizes)).
Proof.
  induction sizes as [|s sizes IH] using rev_ind; intros Hsizes.
  - cbn. split; [apply arenaInv_new|]. intros i j r1 r2 _ Hi; destruct i; discriminate.
  - apply Forall_app in Hsizes. destruct Hsizes as [Hsizes Hs].
    apply Forall_inv in Hs. destruct (IH Hsizes) as [Hinv Hdisj].
    rewrite allocs_app. destruct (allocs newArena sizes) as [rs a1].
    cbn [fst snd] in *. cbn -[alloc].
    destruct (alloc_step a1 rs s Hinv Hs) as [Hinv' Hnew].
    destruct (alloc a1 s) as [p a2]. cbn [fst snd] in *.
    split; [assumption|]. apply pairwiseDisjoint_snoc; assumption.
Qed.
End ArenaInvariant.

(** In every state [alloc] produces, [max] is at most one chunk above
    [buffer], whatever the sizes asked for. *)
Lemma alloc_bound {heap : Malloc} a s :
  max a <= buffer a + kChunkSize ->
  max (snd (alloc a s)) <= buffer (snd (alloc a s)) + kChunkSize.
Proof.
  intros Hmax. unfold alloc.
  destruct (N.ltb_spec (max a) (buffer a + s)); cbn; lia.
Qed.

Lemma allocs_bound {heap : Malloc} sizes : forall a,
  max a <= buffer a + kChunkSize ->
  max (snd (allocs a sizes)) <= buffer (snd (allocs a sizes)) + kChunkSize.
Proof.
  induction sizes as [|s sizes IH]; intros a Hmax.
  - exact Hmax.
  - cbn -[alloc]. pose proof (alloc_bound a s Hmax) as Hstep.
    destruct (alloc a s) as [p a1]. cbn [snd] in Hstep.
    specialize (IH a1 Hstep). destruct (allocs a1 sizes) as [rs a2]. exact IH.
Qed.

(** A request larger than a chunk always opens a new chunk, and the range
    returned for it runs past the end of that chunk. *)
Lemma alloc_oversized {heap : Malloc} a s :
  max a <= buffer a + kChunkSize -> kChunkSize < s ->
  fst (alloc a s) = malloc (length (buffers a)) /\
  buffers (snd (alloc a s)) = buffers a ++ [fst (alloc a s)] /\
  max (snd (alloc a s)) = fst (alloc a s) + kChunkSize /\
  max (snd (alloc a s)) < fst (alloc a s) + s.
Proof.
  intros Hmax Hs. unfold alloc.
  destruct (N.ltb_spec (max a) (buffer a + s)) as [Hnew|Hfit]; [|lia].
  cbn. repeat split; lia.
Qed.

Lemma packedChunks_disjoint : chunksDisjoint (heap := packedChunks).
Proof. intros i j Hij. cbn. lia. Qed.

(** C2 (as stated) fails: with chunks of 4096 bytes laid out back to back,
    a request of 4097 bytes is given a chunk of 4096 bytes only, so its
    range runs one byte past the chunk's end; the next allocation opens the
    following chunk and its range shares that byte. *)
Lemma alloc_oversized_overlaps :
  chunksDisjoint (heap := packedChunks) /\
  allocs (heap := packedChunks) newArena [4097; 1] =
    ([(65536, 4097); (69632, 1)],
     {| buffer := 69633; max := 73728; buffers := [65536; 69632] |}) /\
  max (snd (alloc (heap := packedChunks) newArena 4097)) = 65536 + 4096 /\
  inRange (65536, 4097) 69632 /\ inRange (69632, 1) 69632 /\
  ~ pairwiseDisjoint (fst (allocs (heap := packedChunks) newArena [4097; 1])).
Proof.
  split; [apply packedChunks_disjoint|].
  split; [reflexivity|]. split; [reflexivity|].
  assert (H1 : inRange (65536, 4097) 69632) by (unfold inRange; cbn; lia).
  assert (H2 : inRange (69632, 1) 69632) by (unfold inRange; cbn; lia).
  split; [assumption|]. split; [assumption|].
  intros Hdisj.
  apply (Hdisj 0%nat 1%nat (65536, 4097) (69632, 1)) with (a := 69632);
    [lia | reflexivity | reflexivity | split; assumption].
Qed.

(** ** Operator table *)

Section OperatorTable.
Context {hasher : Hasher} {heap : Malloc}.
Variable blankIdentifier : Identifier.

Lemma addQualifiedName3_ops ctx m chars count sc i ctx' m' :
  addQualifiedName3 blankIdentifier ctx m chars count sc = Some (i, ctx', m') ->
  ops ctx' = ops ctx.
Proof.
  unfold addQualifiedName3. destruct (sc <=? 1).
  - destruct (alloc (stringArena ctx) count) as [t a1]. cbn.
    intros Heq. injection Heq as _ <- _. reflexivity.
  - destruct (alloc (stringArena ctx) _) as [d a1].
    destruct (segmentLoop _ _ _ _ _ _ _ _ _) as [m2|]; [|discriminate].
    cbn. intros Heq. injection Heq as _ <- _. reflexivity.
Qed.

(** Only [addOp] touches the operator table. *)
Lemma call_ops ctx m c ctx' m' :
  call blankIdentifier (ctx, m) c = Some (ctx', m') ->
  ops ctx' =
    match c with
    | CallAddOp op prec assoc =>
        <[op := {| precedence := prec; associativity := assoc |}]> (ops ctx)
    | _ => ops ctx
    end.
Proof.
  destruct c as [op prec assoc|chars count|chars count sc|chars count|id|p b]; cbn -[addQualifiedName3].
  - intros Heq. injection Heq as <- _. reflexivity.
  - intros Heq. injection Heq as <- _. reflexivity.
  - destruct (addQualifiedName3 _ _ _ _ _ _) as [[[i c1] m1]|] eqn:E; [|discriminate].
    intros Heq. injection Heq as <- <-. eapply addQualifiedName3_ops; eassumption.
  - unfold addQualifiedName2.
    destruct (addQualifiedName3 _ _ _ _ _ _) as [[[i c1] m1]|] eqn:E; [|discriminate].
    intros Heq. injection Heq as <- <-. eapply addQualifiedName3_ops; eassumption.
  - intros Heq. injection Heq as <- _. reflexivity.
  - intros Heq. injection Heq as <- _. reflexivity.
Qed.

Lemma calls_ops_unregistered cs : forall ctx m ctx' m' op,
  calls blankIdentifier (ctx, m) cs = Some (ctx', m') ->
  neverAdded op cs ->
  ops ctx' !! op = ops ctx !! op.
Proof.
  induction cs as [|c cs IH]; intros ctx m ctx' m' op Hrun Hnever.
  - cbn in Hrun. injection Hrun as <- _. reflexivity.
  - cbn [calls] in Hrun.
    destruct (call blankIdentifier (ctx, m) c) as [[ctx1 m1]|] eqn:Hc; [|discriminate].
    rewrite (IH ctx1 m1 ctx' m' op Hrun).
    + rewrite (call_ops _ _ _ _ _ Hc).
      destruct c as [op' prec assoc| | | | |]; try reflexivity.
      apply lookup_insert_ne. intros ->. apply (Hnever prec assoc). now left.
    + intros prec assoc Hin. apply (Hnever prec assoc). now right.
Qed.
End OperatorTable.

(** C6: [findOp] on an operator that no [addOp] call has registered, in a
    context reached from a new one by any sequence of calls, returns
    precedence 9 and left associativity; and right after [addOp(id, p, a)],
    as well as after any further calls that do not register [id] again,
    [findOp(id)] returns exactly [{p, a}]. *)
Theorem findOp_default_or_registered {hasher : Hasher} {heap : Malloc} (blank : Identifier) :
  (forall m cs ctx m' op,
     calls blank (newContext, m) cs = Some (ctx, m') ->
     neverAdded op cs ->
     findOp ctx op = {| precedence := 9; associativity := Left |}) /\
  (forall ctx op p a,
     findOp (addOp ctx op p a) op = {| precedence := p; associativity := a |}) /\
  (forall ctx m op p a cs ctx' m',
     calls blank (addOp ctx op p a, m) cs = Some (ctx', m') ->
     neverAdded op cs ->
     findOp ctx' op = {| precedence := p; associativity := a |}).
Proof.
  split; [|split].
  - intros m cs ctx m' op Hrun Hnever. unfold findOp.
    rewrite (calls_ops_unregistered blank cs _ _ _ _ op Hrun Hnever).
    cbn. rewrite lookup_empty. reflexivity.
  - intros ctx op p a. unfold findOp, addOp. cbn.
    rewrite lookup_insert_eq. reflexivity.
  - intros ctx m op p a cs ctx' m' Hrun Hnever. unfold findOp.
    rewrite (calls_ops_unregistered blank cs _ _ _ _ op Hrun Hnever).
    unfold addOp. cbn. rewrite lookup_insert_eq. reflexivity.
Qed.

Lemma findOp_default_or_registered_witness :
  let cs := [CallAddOp 5 3 Right; CallAddQualifiedName2 1000 8;
             CallAddUnqualifiedName 1000 8] in
  let m := storeBytes zeroMem 1000 abcdef in
  match calls (hasher := fnv1a) (heap := packedChunks) zeroIdentifier (newContext, m) cs with
  | Some (ctx, _) => findOp ctx 7 = {| precedence := 9; associativity := Left |}
  | None => False
  end /\
  match calls (hasher := fnv1a) (heap := packedChunks) zeroIdentifier
          (addOp newContext 7 3 Right, m) cs with
  | Some (ctx, _) => findOp ctx 7 = {| precedence := 3; associativity := Right |}
  | None => False
  end.
Proof.
  intros cs m.
  destruct (findOp_default_or_registered (hasher := fnv1a) (heap := packedChunks) zeroIdentifier)
    as (Hdefault & _ & Hkept).
  assert (Hnever : neverAdded 7 cs).
  { intros p a Hin. cbn in Hin.
    repeat (destruct Hin as [Hin|Hin]; [discriminate Hin|]). exact Hin. }
  split.
  - destruct (calls zeroIdentifier (newContext, m) cs) as [[ctx m']|] eqn:E.
    + exact (Hdefault m cs ctx m' 7 E Hnever).
    + vm_compute in E. discriminate E.
  - destruct (calls zeroIdentifier (addOp newContext 7 3 Right, m) cs) as [[ctx m']|] eqn:E.
    + exact (Hkept newContext m 7 3 Right cs ctx m' E Hnever).
    + vm_compute in E. discriminate E.
Defined.

(** ** Instruction kinds *)

(** C7: [isTerminating] is true of [InstRet], [InstJe] and [InstJmp] and
    false of every other kind. *)
Theorem isTerminating_exactly (kind : Value.Kind) :
  isTerminating kind =
    match kind with
    | Value.InstRet | Value.InstJe | Value.InstJmp => true
    | _ => false
    end.
Proof. destruct kind; reflexivity. Qed.

(** ** Identifier table *)

(** C4: the interning key [addIdentifier] computes is the precomputed
    segment hash when [segmentCount] is 1, and otherwise a fresh hash over
    the [textLength] bytes of the name text; the segment tables and the
    [U32] cells they point to play no part in it. *)
Theorem addIdentifier_key {hasher : Hasher} (ctx : Context) (m : Mem) (id : Identifier) :
  (segmentCount id = 1 -> fst (addIdentifier ctx m id) = segmentHash id) /\
  (segmentCount id <> 1 ->
     fst (addIdentifier ctx m id) = hashOf (readBytes m (text id) (textLength id)) /\
     forall segs hashes h ws,
       fst (addIdentifier ctx {| bytes := bytes m; words := ws |}
              {| text := text id; textLength := textLength id;
                 segmentCount := segmentCount id;
                 segments := segs; segmentHashes := hashes; segmentHash := h |})
       = fst (addIdentifier ctx m id)).
Proof.
  unfold addIdentifier, hashOf. cbn. split.
  - intros ->. reflexivity.
  - intros Hmulti. apply N.eqb_neq in Hmulti. rewrite Hmulti.
    split; [reflexivity|]. intros segs hashes h ws. reflexivity.
Qed.

Lemma addIdentifier_key_witness :
  let m := storeBytes zeroMem 1000 abcdef in
  let single := {| text := 1000; textLength := 8; segmentCount := 1;
                   segments := 0; segmentHashes := 0; segmentHash := 77 |} in
  let multi := {| text := 1000; textLength := 8; segmentCount := 3;
                  segments := 2000; segmentHashes := 2012; segmentHash := 77 |} in
  fst (addIdentifier (hasher := fnv1a) newContext m single) = 77 /\
  fst (addIdentifier (hasher := fnv1a) newContext m multi) = hashOf (hasher := fnv1a) abcdef.
Proof.
  intros m single multi. split.
  - apply (proj1 (addIdentifier_key (hasher := fnv1a) newContext m single)). reflexivity.
  - apply (proj2 (addIdentifier_key (hasher := fnv1a) newContext m multi)).
    vm_compute. discriminate.
Defined.

(** C5: [addIdentifier] does not look for an existing entry: every call
    binds the computed key to the new [Identifier] in the table and returns
    the key, which does not depend on the table; when a second call
    computes the key of an earlier one, [find] on that [Id] gives the
    [Identifier] inserted last. *)
Theorem addIdentifier_no_dedup {hasher : Hasher} (ctx : Context) (m : Mem) (id1 id2 : Identifier) :
  let i1 := fst (addIdentifier ctx m id1) in
  let ctx1 := snd (addIdentifier ctx m id1) in
  let i2 := fst (addIdentifier ctx1 m id2) in
  let ctx2 := snd (addIdentifier ctx1 m id2) in
  find ctx1 i1 = Some id1 /\
  identifiers ctx1 = <[i1 := id1]> (identifiers ctx) /\
  identifiers ctx2 = <[i2 := id2]> (identifiers ctx1) /\
  i2 = fst (addIdentifier ctx m id2) /\
  find ctx2 i2 = Some id2 /\
  (i1 = i2 -> find ctx2 i1 = Some id2).
Proof.
  cbn zeta. unfold find, addIdentifier. cbn.
  repeat split; try apply lookup_insert_eq.
  intros ->. apply lookup_insert_eq.
Qed.

Lemma addIdentifier_no_dedup_witness :
  let first := {| text := 1000; textLength := 8; segmentCount := 1;
                  segments := 0; segmentHashes := 0; segmentHash := 77 |} in
  let second := {| text := 3000; textLength := 2; segmentCount := 1;
                   segments := 0; segmentHashes := 0; segmentHash := 77 |} in
  let ctx1 := snd (addIdentifier (hasher := fnv1a) newContext zeroMem first) in
  let ctx2 := snd (addIdentifier (hasher := fnv1a) ctx1 zeroMem second) in
  find ctx1 77 = Some first /\ find ctx2 77 = Some second.
Proof.
  intros first second ctx1 ctx2.
  destruct (addIdentifier_no_dedup (hasher := fnv1a) newContext zeroMem first second)
    as (Hfirst & _ & _ & _ & _ & Hlast).
  split; [exact Hfirst|]. apply Hlast. reflexivity.
Defined.

(** ** Interning names *)

Lemma readBytes_succ m p n :
  readBytes m p (N.succ n) = bytes m p :: readBytes m (p + 1) n.
Proof.
  unfold readBytes. rewrite N2Nat.inj_succ. cbn [seq map].
  rewrite N.add_0_r. f_equal.
  rewrite <- seq_shift, map_map. apply map_ext. intros k.
  replace (p + N.of_nat (S k)) with (p + 1 + N.of_nat k) by lia. reflexivity.
Qed.

Lemma dots_cons b bs :
  dots (b :: bs) = ((if Byte.eqb b dot then 1 else 0) + dots bs)%nat.
Proof.
  unfold dots. rewrite filter_cons.
  destruct (Byte.eqb b dot); destruct (decide _); cbn; congruence.
Qed.

Lemma countSegments_dots n m chars : forall i acc,
  countSegments n m chars i acc =
    acc + N.of_nat (dots (readBytes m (chars + i) (N.of_nat n))).
Proof.
  induction n as [|n IH]; intros i acc.
  - change (dots (readBytes m (chars + i) (N.of_nat 0))) with 0%nat. cbn. lia.
  - cbn [countSegments]. rewrite IH. rewrite Nat2N.inj_succ, readBytes_succ, dots_cons.
    unfold loadByte. replace (chars + (i + 1)) with (chars + i + 1) by lia.
    destruct (Byte.eqb (bytes m (chars + i)) dot); lia.
Qed.

(** The count the two-argument overload arrives at. *)
Lemma countSegments_whole m chars count :
  countSegments (N.to_nat count) m chars 0 1 =
    N.of_nat (dots (readBytes m chars count)) + 1.
Proof. rewrite countSegments_dots, N2Nat.id, N.add_0_r. lia. Qed.

(** C8: the two-argument [addQualifiedName] counts the ['.'] bytes among the
    [count] bytes of the name and then is the three-argument one called
    with that number plus one as [segmentCount]. *)
Theorem addQualifiedName2_infers_count {hasher : Hasher} {heap : Malloc} (blank : Identifier)
    (ctx : Context) (m : Mem) (chars : Ptr) (count : Size) :
  addQualifiedName2 blank ctx m chars count =
  addQualifiedName3 blank ctx m chars count
    (N.of_nat (dots (readBytes m chars count)) + 1).
Proof. unfold addQualifiedName2. rewrite countSegments_whole. reflexivity. Qed.

Section SegmentLoop.
Context {hasher : Hasher}.

(** The segment loop stores [U32] cells only. *)
Lemma segmentLoop_bytes fuel : forall i sc segs hashes chars mx m p m',
  segmentLoop fuel i sc segs hashes chars mx m p = Some m' ->
  bytes m' = bytes m.
Proof.
  induction fuel as [|fuel IH]; intros i sc segs hashes chars mx m p m'; cbn [segmentLoop].
  - discriminate.
  - destruct (i <? sc).
    + destruct (scanSegment _ _ _ _ _) as [p1 hash]. intros Hrun.
      apply IH in Hrun. exact Hrun.
    + intros Heq. injection Heq as <-. reflexivity.
Qed.

(** With a segment count that fits a [U32] the loop is left after
    [segmentCount] rounds. *)
Lemma segmentLoop_returns fuel : forall i sc segs hashes chars mx m p,
  i <= sc -> sc < 2 ^ 32 -> sc - i < N.of_nat fuel ->
  exists m', segmentLoop fuel i sc segs hashes chars mx m p = Some m'.
Proof.
  induction fuel as [|fuel IH]; intros i sc segs hashes chars mx m p Hi Hsc Hfuel.
  - cbn in Hfuel. lia.
  - cbn [segmentLoop]. destruct (N.ltb_spec i sc) as [Hlt|Hge].
    + destruct (scanSegment _ _ _ _ _) as [p1 hash].
      replace (u32 (i + 1)) with (i + 1)
        by (unfold u32; rewrite N.mod_small; lia).
      apply IH; lia.
    + eexists; reflexivity.
Qed.

End SegmentLoop.

Section QualifiedNames.
Context {hasher : Hasher} {heap : Malloc}.
Variable blankIdentifier : Identifier.

(** The single-segment path of [addQualifiedName], spelled out. *)
Lemma addQualifiedName3_single ctx m chars count sc :
  sc <= 1 ->
  addQualifiedName3 blankIdentifier ctx m chars count sc =
    let text := fst (alloc (stringArena ctx) count) in
    let m1 := memcpy m text chars count in
    let i := hashOf (readBytes m1 chars count) in
    let id := {| text := text; textLength := u32 count; segmentCount := 1;
                 segments := nullptr;
                 segmentHashes := segmentHashes blankIdentifier;
                 segmentHash := i |} in
    Some (i,
          {| stringArena := snd (alloc (stringArena ctx) count);
             identifiers := <[i := id]> (identifiers ctx);
             ops := ops ctx |},
          m1).
Proof.
  intros Hsc. unfold addQualifiedName3.
  replace (sc <=? 1) with true by (symmetry; apply N.leb_le; assumption).
  destruct (alloc (stringArena ctx) count) as [t a1]. reflexivity.
Qed.

(** The multi-segment path: the loop returns, it leaves the bytes of the
    memory as [memcpy] made them, and the key is hashed from the copy. *)
Lemma addQualifiedName3_multi ctx m chars count sc :
  1 < sc -> sc < 2 ^ 32 ->
  let data := fst (alloc (stringArena ctx) (count + 2 * (sc * sizeofU32))) in
  let name := data + sizeofU32 * (sc * 2) in
  let m1 := memcpy m name chars count in
  exists m2,
    segmentLoop (S (N.to_nat sc)) 0 sc data (data + sizeofU32 * sc)
      chars (chars + count) m1 chars = Some m2 /\
    bytes m2 = bytes m1 /\
    let i := hashOf (readBytes m2 name (u32 count)) in
    let id := {| text := name; textLength := u32 count; segmentCount := sc;
                 segments := data;
                 segmentHashes := data + sizeofU32 * sc;
                 segmentHash := segmentHash blankIdentifier |} in
    addQualifiedName3 blankIdentifier ctx m chars count sc =
      Some (i,
            {| stringArena := snd (alloc (stringArena ctx) (count + 2 * (sc * sizeofU32)));
               identifiers := <[i := id]> (identifiers ctx);
               ops := ops ctx |},
            m2).
Proof.
  intros Hmulti Hfits data name m1.
  destruct (segmentLoop_returns (S (N.to_nat sc)) 0 sc data (data + sizeofU32 * sc)
              chars (chars + count) m1 chars) as [m2 Hloop]; try lia.
  exists m2. split; [assumption|].
  split; [eapply segmentLoop_bytes; eassumption|].
  cbn zeta. unfold addQualifiedName3.
  replace (sc <=? 1) with false by (symmetry; apply N.leb_gt; assumption).
  subst m1 name data.
  destruct (alloc (stringArena ctx) (count + 2 * (sc * sizeofU32))) as [d a1].
  cbn [fst snd] in *. rewrite Hloop.
  unfold addIdentifier. cbn [segmentCount text textLength segmentHash].
  replace (u32 sc) with sc by (unfold u32; rewrite N.mod_small; lia).
  replace (sc =? 1) with false by (symmetry; apply N.eqb_neq; lia).
  reflexivity.
Qed.


End QualifiedNames.

(** A buffer that the destination of [memcpy] does not overlap reads the
    same after the copy. *)
Lemma readBytes_memcpy_source m dst src n p k :
  disjointRanges (p, k) (dst, n) ->
  readBytes (memcpy m dst src n) p k = readBytes m p k.
Proof.
  intros Hdisj. apply readBytes_ext. intros a Ha.
  apply bytes_memcpy_outside. intros Hdst.
  apply (Hdisj a). unfold inRange. cbn [fst snd]. split; assumption.
Qed.




(** ** The segment tables *)

Section SegmentTables.
Context {hasher : Hasher}.

(** The inner loop consumes the bytes before the next ['.'] (or the end of
    the name) and stops on it. *)
Lemma scanSegment_spec fuel : forall m p mx hash,
  mx - p <= N.of_nat fuel ->
  scanSegment fuel m p mx hash =
    (p + N.of_nat (length (firstSegment (readBytes m p (mx - p)))),
     fold_left addByte (firstSegment (readBytes m p (mx - p))) hash).
Proof.
  induction fuel as [|fuel IH]; intros m p mx hash Hfuel.
  - replace (mx - p) with 0 by lia. cbn. now rewrite N.add_0_r.
  - cbn [scanSegment]. destruct (N.ltb_spec p mx) as [Hlt|Hge].
    + replace (mx - p) with (N.succ (mx - (p + 1))) by lia.
      rewrite readBytes_succ. cbn [firstSegment]. unfold loadByte.
      destruct (Byte.eqb (bytes m p) dot); cbn [andb negb].
      * cbn. now rewrite N.add_0_r.
      * rewrite IH by lia. cbn [length fold_left]. f_equal. lia.
    + replace (mx - p) with 0 by lia. cbn. now rewrite N.add_0_r.
Qed.

(** Where the inner loop stops, its condition is false. *)
Lemma scanSegment_stops fuel : forall m p mx hash,
  mx - p <= N.of_nat fuel ->
  let p' := fst (scanSegment fuel m p mx hash) in
  (p' <? mx) && negb (Byte.eqb (loadByte m p') dot) = false.
Proof.
  induction fuel as [|fuel IH]; intros m p mx hash Hfuel; cbn [scanSegment].
  - cbn [fst]. replace (p <? mx) with false; [reflexivity|].
    symmetry. apply N.ltb_ge. cbn in Hfuel. lia.
  - destruct ((p <? mx) && negb (Byte.eqb (loadByte m p) dot)) eqn:Hcond.
    + apply IH. lia.
    + cbn [fst]. exact Hcond.
Qed.

(** From there on the inner loop does not move. *)
Lemma scanSegment_stuck fuel m p mx hash :
  (p <? mx) && negb (Byte.eqb (loadByte m p) dot) = false ->
  scanSegment fuel m p mx hash = (p, hash).
Proof. intros Hcond. destruct fuel; cbn [scanSegment]; [|rewrite Hcond]; reflexivity. Qed.

Lemma loadU32_storeU32_eq m p i v : loadU32 (storeU32 m p i v) p i = v.
Proof. unfold loadU32, storeU32. cbn [words]. now rewrite N.eqb_refl. Qed.

Lemma loadU32_storeU32_ne m p i v q k :
  q + sizeofU32 * k <> p + sizeofU32 * i ->
  loadU32 (storeU32 m p i v) q k = loadU32 m q k.
Proof.
  intros Hne. unfold loadU32, storeU32. cbn [words].
  destruct (N.eqb_spec (q + sizeofU32 * k) (p + sizeofU32 * i)); [contradiction|reflexivity].
Qed.

(** Once the scan is stuck, every further round stores the same offset and
    the hash of no byte at all, and leaves the earlier entries alone. *)
Lemma segmentLoop_stuck fuel : forall i sc segs chars mx m p,
  i <= sc -> sc < 2 ^ 32 -> sc - i < N.of_nat fuel ->
  (p <? mx) && negb (Byte.eqb (loadByte m p) dot) = false ->
  exists m',
    segmentLoop fuel i sc segs (segs + sizeofU32 * sc) chars mx m p = Some m' /\
    (forall k, i <= k < sc ->
       loadU32 m' segs k = u32 (p - chars) /\
       loadU32 m' (segs + sizeofU32 * sc) k = hashGet hasherNew) /\
    (forall k, k < i ->
       loadU32 m' segs k = loadU32 m segs k /\
       loadU32 m' (segs + sizeofU32 * sc) k = loadU32 m (segs + sizeofU32 * sc) k).
Proof.
  induction fuel as [|fuel IH]; intros i sc segs chars mx m p Hi Hsc Hfuel Hstuck.
  - cbn in Hfuel. lia.
  - cbn [segmentLoop]. destruct (N.ltb_spec i sc) as [Hlt|Hge].
    + rewrite scanSegment_stuck by exact Hstuck.
      replace (u32 (i + 1)) with (i + 1) by (unfold u32; rewrite N.mod_small; lia).
      set (m2 := storeU32 (storeU32 m segs i (u32 (p - chars)))
                   (segs + sizeofU32 * sc) i (hashGet hasherNew)).
      destruct (IH (i + 1) sc segs chars mx m2 p) as (m' & Hrun & Hnew & Hold);
        try lia; [exact Hstuck|].
      exists m'. split; [exact Hrun|]. unfold sizeofU32 in *. split.
      * intros k Hk. destruct (N.eq_dec k i) as [->|Hki].
        -- destruct (Hold i) as [Hs Hh]; [lia|]. rewrite Hs, Hh. subst m2. split.
           ++ rewrite loadU32_storeU32_ne by (unfold sizeofU32; lia).
              apply loadU32_storeU32_eq.
           ++ apply loadU32_storeU32_eq.
        -- apply Hnew. lia.
      * intros k Hk. destruct (Hold k) as [Hs Hh]; [lia|]. rewrite Hs, Hh. subst m2.
        rewrite !loadU32_storeU32_ne by (unfold sizeofU32; lia). split; reflexivity.
    + exists m. split; [reflexivity|]. split; [intros k Hk; lia|].
      intros k Hk. split; reflexivity.
Qed.

(** What the segment loop leaves in the two tables: entry 0 describes the
    bytes before the first ['.']; every later entry holds the offset where
    the first scan stopped and the hash of the empty byte string. *)
Lemma segmentLoop_tables sc segs chars count m :
  0 < sc -> sc < 2 ^ 32 ->
  let first := firstSegment (readBytes m chars count) in
  exists m',
    segmentLoop (S (N.to_nat sc)) 0 sc segs (segs + sizeofU32 * sc)
      chars (chars + count) m chars = Some m' /\
    loadU32 m' segs 0 = 0 /\
    loadU32 m' (segs + sizeofU32 * sc) 0 = hashBytewise first /\
    (forall k, 1 <= k < sc ->
       loadU32 m' segs k = u32 (N.of_nat (length first)) /\
       loadU32 m' (segs + sizeofU32 * sc) k = hashBytewise []).
Proof.
  intros Hpos Hsc first. cbn [segmentLoop].
  replace (0 <? sc) with true by (symmetry; apply N.ltb_lt; assumption).
  set (m1 := storeU32 m segs 0 (u32 (chars - chars))).
  pose proof (scanSegment_spec (N.to_nat (chars + count - chars)) m1 chars
                (chars + count) hasherNew) as Hscan.
  pose proof (scanSegment_stops (N.to_nat (chars + count - chars)) m1 chars
                (chars + count) hasherNew) as Hstop.
  rewrite Hscan in Hstop |- * by lia. cbn [fst] in Hstop. specialize (Hstop ltac:(lia)).
  replace (chars + count - chars) with count in * by lia.
  change (readBytes m1 chars count) with (readBytes m chars count) in *.
  fold first in Hstop |- *.
  set (p1 := chars + N.of_nat (length first)) in *.
  set (m2 := storeU32 m1 (segs + sizeofU32 * sc) 0 (hashGet (fold_left addByte first hasherNew))).
  change (u32 (0 + 1)) with 1.
  destruct (segmentLoop_stuck (N.to_nat sc) 1 sc segs chars (chars + count) m2 p1)
    as (m' & Hrun & Hnew & Hold); try lia; [exact Hstop|].
  exists m'. split; [exact Hrun|].
  destruct (Hold 0) as [Hs Hh]; [lia|]. rewrite Hs, Hh. subst m2 m1.
  split; [|split].
  - rewrite loadU32_storeU32_ne by (unfold sizeofU32; lia).
    rewrite loadU32_storeU32_eq. replace (chars - chars) with 0 by lia. reflexivity.
  - apply loadU32_storeU32_eq.
  - intros k Hk. destruct (Hnew k Hk) as [Hsk Hhk]. rewrite Hsk, Hhk.
    subst p1. replace (chars + N.of_nat (length first) - chars)
      with (N.of_nat (length first)) by lia.
    split; reflexivity.
Qed.
End SegmentTables.

(** What a multi-segment [addQualifiedName] stores for the name, in general. *)
Lemma addQualifiedName3_tables {hasher : Hasher} {heap : Malloc} blank ctx m chars count sc :
  1 < sc -> sc < 2 ^ 32 ->
  disjointRanges (chars, count) (nameBlock ctx count sc) ->
  let first := firstSegment (readBytes m chars count) in
  exists i ctx' m' id,
    addQualifiedName3 blank ctx m chars count sc = Some (i, ctx', m') /\
    find ctx' i = Some id /\
    segmentCount id = sc /\
    loadU32 m' (segments id) 0 = 0 /\
    loadU32 m' (segmentHashes id) 0 = hashBytewise first /\
    (forall k, 1 <= k < sc ->
       loadU32 m' (segments id) k = u32 (N.of_nat (length first)) /\
       loadU32 m' (segmentHashes id) k = hashBytewise []).
Proof.
  intros Hmulti Hsc Hdisj first.
  destruct (addQualifiedName3_multi blank ctx m chars count sc Hmulti Hsc)
    as (m2 & Hloop & _ & Hres).
  cbn zeta in Hres. rewrite Hres. clear Hres.
  set (data := fst (alloc (stringArena ctx) (count + 2 * (sc * sizeofU32)))) in *.
  set (name := data + sizeofU32 * (sc * 2)) in *.
  destruct (segmentLoop_tables sc data chars count (memcpy m name chars count))
    as (m' & Hloop' & Hseg0 & Hhash0 & Hrest); try lia.
  rewrite Hloop in Hloop'. injection Hloop' as <-.
  assert (Hsame : readBytes (memcpy m name chars count) chars count = readBytes m chars count).
  { apply readBytes_memcpy_source. intros a [Ha Hb]. apply (Hdisj a).
    split; [exact Ha|].
    unfold inRange, nameBlock, requestSize in *. cbn [fst snd] in *.
    replace (sc <=? 1) with false by (symmetry; apply N.leb_gt; assumption).
    fold data. subst name. unfold sizeofU32 in *. lia. }
  rewrite Hsame in Hhash0, Hrest. fold first in Hhash0, Hrest.
  do 4 eexists. split; [reflexivity|].
  unfold find. cbn [identifiers].
  split; [apply lookup_insert_eq|]. cbn [segmentCount segments segmentHashes].
  split; [reflexivity|]. split; [exact Hseg0|]. split; [exact Hhash0|]. exact Hrest.
Qed.

(** C1 (what the code does): interning ["a.bc.def"] with three segments
    stores the segment count 3, but the segment offsets [{0, 1, 1}] instead
    of [{0, 2, 5}], and as segment hashes the hash of ["a"] followed twice
    by the hash of the empty byte string: the loop never steps over the
    ['.'] that ends a segment. *)
Theorem addQualifiedName3_abcdef_tables {hasher : Hasher} {heap : Malloc} (blank : Identifier)
    (ctx : Context) (m : Mem) (chars : Ptr) :
  readBytes m chars 8 = abcdef ->
  disjointRanges (chars, 8) (nameBlock ctx 8 3) ->
  exists i ctx' m' id,
    addQualifiedName3 blank ctx m chars 8 3 = Some (i, ctx', m') /\
    find ctx' i = Some id /\
    segmentCount id = 3 /\
    readU32s m' (segments id) 3 = [0; 1; 1] /\
    readU32s m' (segmentHashes id) 3 =
      [hashBytewise ["a"%byte]; hashBytewise []; hashBytewise []] /\
    readU32s m' (segments id) 3 <> [0; 2; 5].
Proof.
  intros Hbytes Hdisj.
  destruct (addQualifiedName3_tables blank ctx m chars 8 3) as
    (i & ctx' & m' & id & Hres & Hfind & Hcount & Hseg0 & Hhash0 & Hrest);
    [reflexivity | reflexivity | exact Hdisj |].
  rewrite Hbytes in Hhash0, Hrest. cbn [firstSegment abcdef] in Hhash0, Hrest.
  change (Byte.eqb "a" dot) with false in Hhash0, Hrest.
  change (Byte.eqb "." dot) with true in Hhash0, Hrest.
  cbn [length] in Hrest. change (u32 (N.of_nat 1)) with 1 in Hrest.
  destruct (Hrest 1) as [Hseg1 Hhash1]; [lia|].
  destruct (Hrest 2) as [Hseg2 Hhash2]; [lia|].
  exists i, ctx', m', id.
  assert (Hsegs : readU32s m' (segments id) 3 = [0; 1; 1]).
  { change (readU32s m' (segments id) 3) with
      [loadU32 m' (segments id) 0; loadU32 m' (segments id) 1; loadU32 m' (segments id) 2].
    rewrite Hseg0, Hseg1, Hseg2. reflexivity. }
  repeat (split; [assumption|]). split.
  - change (readU32s m' (segmentHashes id) 3) with
      [loadU32 m' (segmentHashes id) 0; loadU32 m' (segmentHashes id) 1;
       loadU32 m' (segmentHashes id) 2].
    rewrite Hhash0, Hhash1, Hhash2. reflexivity.
  - rewrite Hsegs. discriminate.
Qed.

Lemma addQualifiedName3_abcdef_tables_witness :
  let m := storeBytes zeroMem 1000 abcdef in
  exists i ctx' m' id,
    addQualifiedName3 (hasher := fnv1a) (heap := packedChunks) zeroIdentifier newContext m 1000 8 3
      = Some (i, ctx', m') /\
    find ctx' i = Some id /\
    segmentCount id = 3 /\
    readU32s m' (segments id) 3 = [0; 1; 1] /\
    readU32s m' (segmentHashes id) 3 =
      [hashBytewise (hasher := fnv1a) ["a"%byte]; hashBytewise (hasher := fnv1a) [];
       hashBytewise (hasher := fnv1a) []] /\
    readU32s m' (segments id) 3 <> [0; 2; 5].
Proof.
  intros m.
  apply (addQualifiedName3_abcdef_tables (hasher := fnv1a) (heap := packedChunks)
           zeroIdentifier newContext m 1000).
  - reflexivity.
  - assert (Hblock : nameBlock (heap := packedChunks) newContext 8 3 = (65536, 32))
      by reflexivity.
    rewrite Hblock. intros a [Ha Hb].
    unfold inRange in Ha, Hb. cbn [fst snd] in Ha, Hb. lia.
Defined.

(** * Further properties *)

(** ** Arena: chunks, teardown, alignment *)

Section ArenaChunks.
Context {heap : Malloc}.

Lemma alloc_buffers a s :
  buffers (snd (alloc a s)) =
    buffers a ++ (if max a <? buffer a + s then [malloc (length (buffers a))] else []).
Proof.
  unfold alloc. destruct (max a <? buffer a + s); cbn; [reflexivity|].
  now rewrite app_nil_r.
Qed.

Lemma allocs_buffers sizes : forall a,
  buffers (snd (allocs a sizes)) = buffers a ++ mallocCalls a sizes.
Proof.
  induction sizes as [|s sizes IH]; intros a.
  - cbn. now rewrite app_nil_r.
  - cbn -[alloc]. pose proof (alloc_buffers a s) as Hstep.
    destruct (alloc a s) as [p a1] eqn:Ha. cbn [snd] in *.
    specialize (IH a1). destruct (allocs a1 sizes) as [rs a2]. cbn [snd] in *.
    rewrite IH, Hstep, <- app_assoc. reflexivity.
Qed.

Lemma mallocCalls_seq sizes : forall a,
  mallocCalls a sizes =
    map malloc (seq (length (buffers a)) (length (mallocCalls a sizes))).
Proof.
  induction sizes as [|s sizes IH]; intros a.
  - reflexivity.
  - cbn [mallocCalls]. rewrite (IH (snd (alloc a s))) at 1.
    rewrite alloc_buffers. destruct (max a <? buffer a + s).
    + rewrite length_app. cbn [length app]. rewrite Nat.add_1_r.
      cbn [seq map]. reflexivity.
    + rewrite app_nil_r. reflexivity.
Qed.

Lemma mallocCalls_length sizes : forall a,
  (length (mallocCalls a sizes) <= length sizes)%nat.
Proof.
  induction sizes as [|s sizes IH]; intros a; cbn [mallocCalls length].
  - lia.
  - rewrite length_app. specialize (IH (snd (alloc a s))).
    destruct (max a <? buffer a + s); cbn [length]; lia.
Qed.

Lemma malloc_injective :
  chunksDisjoint -> 0 < kChunkSize -> forall i j, malloc i = malloc j -> i = j.
Proof.
  intros Hchunks Hpos i j Heq. destruct (decide (i = j)) as [|Hne]; [assumption|].
  destruct (Hchunks i j Hne); lia.
Qed.
End ArenaChunks.

(** X1: the destructor passes to [free] exactly the pointers [malloc]
    returned to the arena, in the same order and each once, and leaves the
    arena in the state of a new one; the arena asks for at most one chunk
    per [alloc] call. *)
Theorem destroyArena_frees_every_chunk_once {heap : Malloc} (sizes : list Size) :
  chunksDisjoint -> 0 < kChunkSize ->
  let a := snd (allocs newArena sizes) in
  fst (destroyArena a) = mallocCalls newArena sizes /\
  NoDup (fst (destroyArena a)) /\
  (length (fst (destroyArena a)) <= length sizes)%nat /\
  snd (destroyArena a) = newArena.
Proof.
  intros Hchunks Hpos a. unfold destroyArena. cbn [fst snd].
  assert (Hbufs : buffers a = mallocCalls newArena sizes).
  { subst a. rewrite allocs_buffers. reflexivity. }
  rewrite Hbufs. split; [reflexivity|]. split; [|split].
  - rewrite mallocCalls_seq. apply NoDup_fmap_2.
    + intros i j. apply malloc_injective; assumption.
    + apply NoDup_seq.
  - apply mallocCalls_length.
  - reflexivity.
Qed.

Lemma destroyArena_frees_every_chunk_once_witness :
  let a := snd (allocs (heap := packedChunks) newArena [10; 4090; 5000; 0; 3]) in
  fst (destroyArena a) = [65536; 69632; 73728; 77824] /\
  NoDup (fst (destroyArena a)) /\
  snd (destroyArena a) = newArena.
Proof.
  intros a.
  destruct (destroyArena_frees_every_chunk_once (heap := packedChunks)
              [10; 4090; 5000; 0; 3]) as (Hfreed & Hnodup & _ & Hnew).
  - intros i j Hij. cbn. lia.
  - reflexivity.
  - split; [exact Hfreed|]. split; [exact Hnodup | exact Hnew].
Defined.

Section ArenaCapacity.
Context {heap : Malloc}.

Lemma allocs_cons a s sizes :
  allocs a (s :: sizes) =
    ((fst (alloc a s), s) :: fst (allocs (snd (alloc a s)) sizes),
     snd (allocs (snd (alloc a s)) sizes)).
Proof.
  cbn -[alloc]. destruct (alloc a s) as [p a1]. cbn [fst snd].
  destruct (allocs a1 sizes) as [rs a2]. reflexivity.
Qed.

(** The bytes asked for so far fit in the chunks before the last one plus
    the used part of the last one. *)
Lemma allocs_capacity sizes : forall a total,
  Forall (fun s => s <= kChunkSize) sizes ->
  (length (buffers a) = 0%nat -> buffer a = 0 /\ max a = 0 /\ total = 0) ->
  (forall k, length (buffers a) = S k ->
     max a = malloc k + kChunkSize /\ malloc k <= buffer a <= max a /\
     total <= kChunkSize * N.of_nat k + (buffer a - malloc k)) ->
  total + totalSize sizes <=
    kChunkSize * N.of_nat (length (buffers (snd (allocs a sizes)))).
Proof.
  induction sizes as [|s sizes IH]; intros a total Hsizes Hfresh Hcur.
  - cbn. rewrite N.add_0_r. destruct (length (buffers a)) as [|k] eqn:Hn.
    + destruct (Hfresh eq_refl) as (_ & _ & ->). lia.
    + destruct (Hcur k eq_refl) as (Hmx & Hbuf & Htot). lia.
  - apply Forall_cons_1 in Hsizes. destruct Hsizes as [Hs Hsizes].
    rewrite allocs_cons. cbn [snd].
    change (totalSize (s :: sizes)) with (s + totalSize sizes).
    replace (total + (s + totalSize sizes)) with (total + s + totalSize sizes) by lia.
    apply (IH (snd (alloc a s)) (total + s) Hsizes); unfold alloc;
      destruct (N.ltb_spec (max a) (buffer a + s)) as [Hnew|Hfit];
      cbn [snd buffer max buffers].
    + rewrite length_app. cbn. lia.
    + intros Hn. destruct (Hfresh Hn) as (Hb & Hm & Ht). lia.
    + intros k Hk. rewrite length_app in Hk. cbn in Hk.
      assert (Hlen : length (buffers a) = k) by lia.
      rewrite Hlen. repeat split; try lia.
      destruct k as [|k'].
      * destruct (Hfresh Hlen) as (_ & _ & ->). lia.
      * destruct (Hcur k' Hlen) as (Hmx & Hbuf & Htot). lia.
    + intros k Hk. destruct (Hcur k Hk) as (Hmx & Hbuf & Htot). lia.
Qed.
End ArenaCapacity.

(** X2: as long as no request exceeds [kChunkSize], the chunks the arena
    holds can take all the bytes it has handed out: the sizes asked for sum
    to at most [kChunkSize] times the number of chunks. *)
Theorem allocs_total_within_chunks {heap : Malloc} (sizes : list Size) :
  Forall (fun s => s <= kChunkSize) sizes ->
  totalSize sizes <=
    kChunkSize * N.of_nat (length (buffers (snd (allocs newArena sizes)))).
Proof.
  intros Hsizes.
  pose proof (allocs_capacity sizes newArena 0 Hsizes) as Hcap.
  rewrite N.add_0_l in Hcap. apply Hcap.
  - intros _. repeat split.
  - intros k Hk. discriminate Hk.
Qed.

Lemma allocs_total_within_chunks_witness :
  totalSize [10; 4090; 7; 0; 4096] <=
    kChunkSize (Malloc := packedChunks)
    * N.of_nat (length (buffers (snd (allocs (heap := packedChunks) newArena
                                       [10; 4090; 7; 0; 4096])))).
Proof.
  apply (allocs_total_within_chunks (heap := packedChunks) [10; 4090; 7; 0; 4096]).
  repeat constructor; cbn; lia.
Defined.



Section ArenaLastChunk.
Context {heap : Malloc}.
Hypothesis chunks : chunksDisjoint.

(** A non-empty range comes from the last chunk of the state [alloc]
    leaves. *)
Lemma alloc_from_last_chunk a rs s :
  arenaInv a rs -> s <= kChunkSize -> s <> 0 ->
  exists i, S i = length (buffers (snd (alloc a s))) /\
    (length (buffers a) <= S i)%nat /\
    malloc i <= fst (alloc a s) /\ fst (alloc a s) + s <= malloc i + kChunkSize.
Proof.
  intros [Hbufs Hfresh Hcur _ _] Hs Hnz. unfold alloc.
  destruct (N.ltb_spec (max a) (buffer a + s)) as [Hnew|Hfit]; cbn [fst snd buffer buffers].
  - exists (length (buffers a)). rewrite length_app. cbn. repeat split; lia.
  - destruct (length (buffers a)) as [|k] eqn:Hn.
    + destruct (Hfresh eq_refl). lia.
    + destruct (Hcur k eq_refl) as [Hmx Hbuf]. exists k. repeat split; lia.
Qed.

Lemma allocs_from_last_chunks sizes : forall a rs,
  arenaInv a rs -> Forall (fun s => s <= kChunkSize) sizes ->
  forall r, In r (fst (allocs a sizes)) ->
    snd r = 0 \/
    exists i, (length (buffers a) <= S i)%nat /\
      malloc i <= fst r /\ fst r + snd r <= malloc i + kChunkSize.
Proof.
  induction sizes as [|s sizes IH]; intros a rs Hinv Hsizes r Hr.
  - destruct Hr.
  - apply Forall_cons_1 in Hsizes. destruct Hsizes as [Hs Hsizes].
    rewrite allocs_cons in Hr. cbn [fst] in Hr. destruct Hr as [<-|Hr].
    + cbn [fst snd]. destruct (N.eq_dec s 0) as [|Hnz]; [now left|]. right.
      destruct (alloc_from_last_chunk a rs s Hinv Hs Hnz) as (i & _ & Hi & Hlo & Hhi).
      exists i. repeat split; assumption.
    + destruct (alloc_step chunks a rs s Hinv Hs) as [Hinv' _].
      destruct (IH _ _ Hinv' Hsizes r Hr) as [Hz|(i & Hi & Hlo & Hhi)]; [now left|].
      right. exists i. repeat split; try assumption.
      rewrite alloc_buffers in Hi. rewrite length_app in Hi. lia.
Qed.
End ArenaLastChunk.

(** X4: the arena never goes back to a chunk it has left.  As long as no
    request exceeds [kChunkSize], once the arena holds a later chunk, no
    byte of an earlier chunk is handed out any more: what was free in it
    stays unused. *)
Theorem alloc_leaves_earlier_chunks {heap : Malloc} (before after : list Size) :
  chunksDisjoint ->
  Forall (fun s => s <= kChunkSize) before ->
  Forall (fun s => s <= kChunkSize) after ->
  let a := snd (allocs newArena before) in
  forall r, In r (fst (allocs a after)) ->
  forall j, (S j < length (buffers a))%nat ->
  forall x, inRange r x -> ~ inChunk j x.
Proof.
  intros Hchunks Hbefore Hafter a r Hr j Hj x Hx Hin.
  destruct (allocs_inv Hchunks before Hbefore) as [Hinv _]. fold a in Hinv.
  unfold inRange, inChunk in *.
  destruct (allocs_from_last_chunks Hchunks after a _ Hinv Hafter r Hr)
    as [Hz|(i & Hi & Hlo & Hhi)]; [lia|].
  assert (Hne : j <> i) by lia.
  destruct (Hchunks j i Hne); lia.
Qed.

Lemma alloc_leaves_earlier_chunks_witness :
  let a := snd (allocs (heap := packedChunks) newArena [100; 4000]) in
  fst (allocs (heap := packedChunks) a [50; 20]) = [(73632, 50); (73682, 20)] /\
  ~ inChunk (heap := packedChunks) 0 73640.
Proof.
  intros a. split; [reflexivity|].
  apply (alloc_leaves_earlier_chunks (heap := packedChunks) [100; 4000] [50; 20])
    with (r := (73632, 50)).
  - intros i j Hij. cbn. lia.
  - repeat constructor; cbn; lia.
  - repeat constructor; cbn; lia.
  - left. reflexivity.
  - vm_compute. lia.
  - unfold inRange. cbn [fst snd]. lia.
Defined.

Lemma allocs_buffer_le_max {heap : Malloc} sizes : forall a,
  buffer a <= max a ->
  Forall (fun s => s <= kChunkSize) sizes ->
  buffer (snd (allocs a sizes)) <= max (snd (allocs a sizes)).
Proof.
  induction sizes as [|s sizes IH]; intros a Ha Hsizes.
  - exact Ha.
  - apply Forall_cons_1 in Hsizes. destruct Hsizes as [Hs Hsizes].
    rewrite allocs_cons. cbn [snd]. apply IH; [|assumption].
    unfold alloc. destruct (N.ltb_spec (max a) (buffer a + s)); cbn; lia.
Qed.

(** X5: a request of zero bytes costs nothing.  In every state reached by
    requests of at most [kChunkSize] bytes, [alloc(0)] returns the current
    bump pointer, asks for no chunk and leaves the arena as it was, so the
    pointer is also the one the next fitting request gets; on a new arena
    it is [nullptr]. *)
Theorem alloc_zero_is_free {heap : Malloc} (sizes : list Size) :
  Forall (fun s => s <= kChunkSize) sizes ->
  let a := snd (allocs newArena sizes) in
  alloc a 0 = (buffer a, a) /\
  (forall s, fst (alloc (snd (alloc a 0)) s) = fst (alloc a s)) /\
  fst (alloc newArena 0) = nullptr.
Proof.
  intros Hsizes a.
  assert (Hle : buffer a <= max a).
  { apply allocs_buffer_le_max; [cbn; lia | assumption]. }
  assert (Hzero : alloc a 0 = (buffer a, a)).
  { unfold alloc. destruct (N.ltb_spec (max a) (buffer a + 0)) as [Hnew|Hfit]; [lia|].
    destruct a as [b mx bufs]. cbn. now rewrite N.add_0_r. }
  split; [exact Hzero|]. split; [|reflexivity].
  intros s. rewrite Hzero. reflexivity.
Qed.

Lemma alloc_zero_is_free_witness :
  let a := snd (allocs (heap := packedChunks) newArena [10; 4086]) in
  alloc (heap := packedChunks) a 0 = (69632, a).
Proof.
  intros a.
  apply (alloc_zero_is_free (heap := packedChunks) [10; 4086]).
  repeat constructor; cbn; lia.
Defined.

Lemma alloc_new_chunk {heap : Malloc} a s :
  max a < buffer a + s ->
  fst (alloc a s) = malloc (length (buffers a)) /\
  buffers (snd (alloc a s)) = buffers a ++ [malloc (length (buffers a))].
Proof.
  intros Hnew. unfold alloc.
  destruct (N.ltb_spec (max a) (buffer a + s)); [|lia]. split; reflexivity.
Qed.

(** ** Interning: what is stored and what is touched *)

Section InterningResults.
Context {hasher : Hasher} {heap : Malloc}.
Variable blankIdentifier : Identifier.

(** The segment loop writes the cells of its two tables and nothing else. *)
Lemma segmentLoop_words fuel : forall i sc segs hashes chars mx m p m',
  sc < 2 ^ 32 ->
  segmentLoop fuel i sc segs hashes chars mx m p = Some m' ->
  forall a,
    (forall k, i <= k < sc ->
       a <> segs + sizeofU32 * k /\ a <> hashes + sizeofU32 * k) ->
    words m' a = words m a.
Proof.
  induction fuel as [|fuel IH]; intros i sc segs hashes chars mx m p m' Hsc;
    cbn [segmentLoop].
  - discriminate.
  - destruct (N.ltb_spec i sc) as [Hlt|Hge].
    + destruct (scanSegment _ _ _ _ _) as [p1 hash].
      replace (u32 (i + 1)) with (i + 1) by (unfold u32; rewrite N.mod_small; lia).
      intros Hrun a Hout. rewrite (IH _ _ _ _ _ _ _ _ _ Hsc Hrun a).
      * destruct (Hout i) as [Hs Hh]; [lia|]. cbn [storeU32 words].
        destruct (N.eqb_spec a (hashes + sizeofU32 * i)); [contradiction|].
        destruct (N.eqb_spec a (segs + sizeofU32 * i)); [contradiction|].
        reflexivity.
      * intros k Hk. apply Hout. lia.
    + intros Heq. injection Heq as <-. reflexivity.
Qed.

(** What a call of [addQualifiedName] that returns has done: the fields of
    the stored [Identifier], the new context, the bytes and the [U32]
    cells of the memory. *)
Lemma addQualifiedName3_result ctx m chars count sc :
  sc < 2 ^ 32 ->
  let block := fst (nameBlock ctx count sc) in
  exists i ctx' m' id,
    addQualifiedName3 blankIdentifier ctx m chars count sc = Some (i, ctx', m') /\
    ctx' = {| stringArena := snd (alloc (stringArena ctx) (requestSize count sc));
              identifiers := <[i := id]> (identifiers ctx);
              ops := ops ctx |} /\
    text id = block + (requestSize count sc - count) /\
    textLength id = u32 count /\
    segmentCount id = N.max 1 sc /\
    segments id = (if sc <=? 1 then nullptr else block) /\
    (1 < sc -> segmentHashes id = block + sizeofU32 * sc) /\
    bytes m' = bytes (memcpy m (text id) chars count) /\
    (forall a, ~ inRange (block, 2 * (sc * sizeofU32)) a -> words m' a = words m a) /\
    (sc <= 1 -> words m' = words m).
Proof.
  intros Hfits. unfold nameBlock, requestSize. cbn [fst].
  destruct (N.leb_spec sc 1) as [Hsingle|Hmulti].
  - rewrite (addQualifiedName3_single blankIdentifier ctx m chars count sc Hsingle).
    cbn zeta. do 4 eexists. split; [reflexivity|]. split; [reflexivity|].
    cbn [text textLength segmentCount segments].
    split; [lia|]. split; [reflexivity|].
    split; [lia|]. split; [reflexivity|]. split; [lia|].
    split; [reflexivity|]. split; reflexivity.
  - destruct (addQualifiedName3_multi blankIdentifier ctx m chars count sc Hmulti Hfits)
      as (m2 & Hloop & Hbytes & Hres).
    cbn zeta in Hres. rewrite Hres.
    do 4 eexists. split; [reflexivity|]. split; [reflexivity|].
    cbn [text textLength segmentCount segments segmentHashes].
    split; [unfold sizeofU32; lia|]. split; [reflexivity|].
    split; [lia|]. split; [reflexivity|]. split; [reflexivity|].
    split; [exact Hbytes|]. split; [|lia].
    intros a Hout. rewrite (segmentLoop_words _ _ _ _ _ _ _ _ _ _ Hfits Hloop a).
    + reflexivity.
    + intros k Hk. unfold inRange, sizeofU32 in *. cbn [fst snd] in Hout. lia.
Qed.
End InterningResults.

(** X7: interning a name and looking its [Id] up gives back the name.
    For a name whose length fits a [U32], the [Identifier] that [find]
    returns for the [Id] just handed out has a [text] and a [textLength]
    under which the memory holds the bytes of the name, through
    [addUnqualifiedName] and through [addQualifiedName] with any segment
    count that fits a [U32]. *)
Theorem interned_text_reads_back {hasher : Hasher} {heap : Malloc} (blank : Identifier)
    (ctx : Context) (m : Mem) (chars : Ptr) (count : Size) :
  count < 2 ^ 32 ->
  (exists id,
     find (snd (addUnqualifiedName blank ctx m chars count))
          (fst (addUnqualifiedName blank ctx m chars count)) = Some id /\
     readBytes m (text id) (textLength id) = readBytes m chars count) /\
  (forall sc, sc < 2 ^ 32 ->
     exists i ctx' m' id,
       addQualifiedName3 blank ctx m chars count sc = Some (i, ctx', m') /\
       find ctx' i = Some id /\
       readBytes m' (text id) (textLength id) = readBytes m chars count).
Proof.
  intros Hcount.
  assert (Hu32 : u32 count = count) by (unfold u32; now rewrite N.mod_small).
  split.
  - unfold addUnqualifiedName, addIdentifier, find. cbn.
    eexists. split; [apply lookup_insert_eq|]. cbn. now rewrite Hu32.
  - intros sc Hsc.
    destruct (addQualifiedName3_result blank ctx m chars count sc Hsc)
      as (i & ctx' & m' & id & Hres & Hctx & _ & Hlen & _ & _ & _ & Hbytes & _).
    exists i, ctx', m', id. split; [exact Hres|]. rewrite Hctx.
    split; [unfold find; cbn; apply lookup_insert_eq|].
    rewrite Hlen, Hu32. rewrite <- (readBytes_memcpy m (text id) chars count).
    apply readBytes_ext. intros a _. now rewrite Hbytes.
Qed.

Lemma interned_text_reads_back_witness :
  let m := storeBytes zeroMem 1000 abcdef in
  exists i ctx' m' id,
    addQualifiedName3 (hasher := fnv1a) (heap := packedChunks) zeroIdentifier
      newContext m 1000 8 3 = Some (i, ctx', m') /\
    find ctx' i = Some id /\
    readBytes m' (text id) (textLength id) = abcdef.
Proof.
  intros m.
  assert (Hcount : 8 < 2 ^ 32) by reflexivity.
  assert (Hsc : 3 < 2 ^ 32) by reflexivity.
  destruct (interned_text_reads_back (hasher := fnv1a) (heap := packedChunks)
              zeroIdentifier newContext m 1000 8 Hcount) as [_ Hqualified].
  exact (Hqualified 3 Hsc).
Defined.

Section TableFrames.
Context {hasher : Hasher} {heap : Malloc}.
Variable blankIdentifier : Identifier.

(** [addIdentifier] binds one key, and a single-segment [Identifier] is
    bound to its own segment hash. *)
Lemma addIdentifier_binds ctx m id :
  identifiers (snd (addIdentifier ctx m id)) =
    <[fst (addIdentifier ctx m id) := id]> (identifiers ctx) /\
  stringArena (snd (addIdentifier ctx m id)) = stringArena ctx /\
  ops (snd (addIdentifier ctx m id)) = ops ctx /\
  (segmentCount id = 1 -> segmentHash id = fst (addIdentifier ctx m id)).
Proof.
  unfold addIdentifier. cbn. repeat split. intros ->. reflexivity.
Qed.

Lemma addUnqualifiedName_binds ctx m chars count :
  exists id,
    identifiers (snd (addUnqualifiedName blankIdentifier ctx m chars count)) =
      <[fst (addUnqualifiedName blankIdentifier ctx m chars count) := id]> (identifiers ctx) /\
    (segmentCount id = 1 ->
     segmentHash id = fst (addUnqualifiedName blankIdentifier ctx m chars count)).
Proof.
  unfold addUnqualifiedName. cbn zeta.
  match goal with |- context [addIdentifier ?c ?mm ?d] =>
    destruct (addIdentifier_binds c mm d) as (Hids & _ & _ & Hkey) end.
  eauto.
Qed.

(** So does every call of [addQualifiedName] that returns. *)
Lemma addQualifiedName3_binds ctx m chars count sc i ctx' m' :
  addQualifiedName3 blankIdentifier ctx m chars count sc = Some (i, ctx', m') ->
  exists id,
    identifiers ctx' = <[i := id]> (identifiers ctx) /\
    ops ctx' = ops ctx /\
    (segmentCount id = 1 -> segmentHash id = i).
Proof.
  unfold addQualifiedName3. destruct (sc <=? 1).
  - destruct (alloc (stringArena ctx) count) as [t a1].
    match goal with |- context [addIdentifier ?c ?mm ?d] =>
      pose proof (addIdentifier_binds c mm d) as (Hids & _ & Hops & Hkey);
      destruct (addIdentifier c mm d) as [k c2] end.
    cbn [fst snd] in *. intros Heq. injection Heq as <- <- _.
    eexists. split; [exact Hids|]. split; [exact Hops | exact Hkey].
  - destruct (alloc (stringArena ctx) _) as [d a1].
    destruct (segmentLoop _ _ _ _ _ _ _ _ _) as [m2|]; [|discriminate].
    match goal with |- context [addIdentifier ?c ?mm ?d] =>
      pose proof (addIdentifier_binds c mm d) as (Hids & _ & Hops & Hkey);
      destruct (addIdentifier c mm d) as [k c2] end.
    cbn [fst snd] in *. intros Heq. injection Heq as <- <- _.
    eexists. split; [exact Hids|]. split; [exact Hops | exact Hkey].
Qed.
End TableFrames.

(** X8: the tables are touched one entry at a time.  Interning a name
    changes what [find] returns for the [Id] handed out and for no other,
    and changes no operator; [addUnqualifiedName] leaves the string arena
    alone as well.  [addOp] changes what [findOp] returns for its operator
    and for no other, and changes neither the identifier table nor the
    arena. *)
Theorem tables_change_one_entry {hasher : Hasher} {heap : Malloc} (blank : Identifier)
    (ctx : Context) (m : Mem) (chars : Ptr) (count : Size) :
  ((forall j, j <> fst (addUnqualifiedName blank ctx m chars count) ->
      find (snd (addUnqualifiedName blank ctx m chars count)) j = find ctx j) /\
   (forall op, findOp (snd (addUnqualifiedName blank ctx m chars count)) op = findOp ctx op) /\
   stringArena (snd (addUnqualifiedName blank ctx m chars count)) = stringArena ctx) /\
  (forall sc i ctx' m',
     addQualifiedName3 blank ctx m chars count sc = Some (i, ctx', m') ->
     (forall j, j <> i -> find ctx' j = find ctx j) /\
     (forall op, findOp ctx' op = findOp ctx op)) /\
  (forall op p a,
     (forall op', op' <> op -> findOp (addOp ctx op p a) op' = findOp ctx op') /\
     (forall j, find (addOp ctx op p a) j = find ctx j) /\
     stringArena (addOp ctx op p a) = stringArena ctx).
Proof.
  split; [|split].
  - unfold addUnqualifiedName.
    match goal with |- context [addIdentifier ?c ?mm ?d] =>
      pose proof (addIdentifier_binds c mm d) as (Hids & Harena & Hops & _) end.
    split; [|split].
    + intros j Hj. unfold find. rewrite Hids. apply lookup_insert_ne. congruence.
    + intros op. unfold findOp. now rewrite Hops.
    + exact Harena.
  - intros sc i ctx' m' Hres.
    destruct (addQualifiedName3_binds blank ctx m chars count sc i ctx' m' Hres)
      as (id & Hids & Hops & _).
    split.
    + intros j Hj. unfold find. rewrite Hids. apply lookup_insert_ne. congruence.
    + intros op. unfold findOp. now rewrite Hops.
  - intros op p a. split; [|split].
    + intros op' Hne. unfold findOp, addOp. cbn.
      rewrite lookup_insert_ne by congruence. reflexivity.
    + intros j. reflexivity.
    + reflexivity.
Qed.

Lemma tables_change_one_entry_witness :
  let m := storeBytes zeroMem 1000 abcdef in
  let ctx := addOp (snd (addUnqualifiedName (hasher := fnv1a) zeroIdentifier
                           newContext m 1001 1)) 5 3 Right in
  match addQualifiedName3 (hasher := fnv1a) (heap := packedChunks) zeroIdentifier
          ctx m 1000 8 3 with
  | Some (i, ctx', _) =>
      find ctx' (hashOf (hasher := fnv1a) ["."%byte]) =
        find ctx (hashOf (hasher := fnv1a) ["."%byte]) /\
      findOp ctx' 5 = {| precedence := 3; associativity := Right |}
  | None => False
  end.
Proof.
  intros m ctx.
  destruct (tables_change_one_entry (hasher := fnv1a) (heap := packedChunks)
              zeroIdentifier ctx m 1000 8) as (_ & Hqualified & _).
  pose (key := fun r : option (Id * Context * Mem) =>
          match r with Some (i, _, _) => Some i | None => None end).
  assert (Hkey : key (addQualifiedName3 (hasher := fnv1a) (heap := packedChunks)
                        zeroIdentifier ctx m 1000 8 3)
                 = Some (hashOf (hasher := fnv1a) abcdef)) by reflexivity.
  destruct (addQualifiedName3 zeroIdentifier ctx m 1000 8 3)
    as [[[i ctx'] m']|] eqn:E; cbn [key] in Hkey; [|discriminate Hkey].
  injection Hkey as Hi.
  destruct (Hqualified 3 i ctx' m' E) as [Hfind Hop]. split.
  - apply Hfind. rewrite Hi. intros Heq. vm_compute in Heq. discriminate Heq.
  - rewrite Hop. reflexivity.
Defined.

(** X10: the block of a multi-segment name holds, one after the other and
    with no gap, the table of segment offsets, the table of segment hashes
    and the text: [segments] is the start of the block, [segmentHashes]
    comes [segmentCount] cells later, [text] another [segmentCount] cells
    later, and the text ends where the block ends. *)
Theorem addQualifiedName3_block_layout {hasher : Hasher} {heap : Malloc}
    (blank : Identifier) (ctx : Context) (m : Mem) (chars : Ptr) (count sc : Size) :
  1 < sc -> sc < 2 ^ 32 ->
  exists i ctx' m' id,
    addQualifiedName3 blank ctx m chars count sc = Some (i, ctx', m') /\
    find ctx' i = Some id /\
    segments id = fst (nameBlock ctx count sc) /\
    segmentHashes id = segments id + sizeofU32 * segmentCount id /\
    text id = segmentHashes id + sizeofU32 * segmentCount id /\
    text id + count = fst (nameBlock ctx count sc) + snd (nameBlock ctx count sc).
Proof.
  intros Hmulti Hsc.
  destruct (addQualifiedName3_result blank ctx m chars count sc Hsc)
    as (i & ctx' & m' & id & Hres & Hctx & Htext & _ & Hcount & Hsegs & Hhashes & _).
  exists i, ctx', m', id. split; [exact Hres|].
  split; [rewrite Hctx; unfold find; cbn; apply lookup_insert_eq|].
  specialize (Hhashes Hmulti).
  replace (sc <=? 1) with false in Hsegs by (symmetry; apply N.leb_gt; assumption).
  replace (N.max 1 sc) with sc in Hcount by lia.
  rewrite Hcount, Hhashes, Hsegs, Htext.
  unfold nameBlock, requestSize, sizeofU32. cbn [fst snd].
  replace (sc <=? 1) with false by (symmetry; apply N.leb_gt; assumption).
  repeat split; lia.
Qed.

Lemma addQualifiedName3_block_layout_witness :
  let m := storeBytes zeroMem 1000 abcdef in
  exists i ctx' m' id,
    addQualifiedName3 (hasher := fnv1a) (heap := packedChunks) zeroIdentifier
      newContext m 1000 8 3 = Some (i, ctx', m') /\
    find ctx' i = Some id /\
    segments id = fst (nameBlock (heap := packedChunks) newContext 8 3) /\
    segmentHashes id = segments id + sizeofU32 * segmentCount id /\
    text id = segmentHashes id + sizeofU32 * segmentCount id /\
    text id + 8 = fst (nameBlock (heap := packedChunks) newContext 8 3)
                  + snd (nameBlock (heap := packedChunks) newContext 8 3).
Proof.
  intros m.
  apply (addQualifiedName3_block_layout (hasher := fnv1a) (heap := packedChunks)
           zeroIdentifier newContext m 1000 8 3); reflexivity.
Defined.

(** X11: the empty name.  With a length of 0 every entry point interns
    under the hash of no byte at all, whatever the pointer and the memory;
    the two-argument [addQualifiedName] takes it for a single segment and
    stores a [textLength] of 0. *)
Theorem interning_empty_name {hasher : Hasher} {heap : Malloc} (blank : Identifier)
    (ctx : Context) (m : Mem) (chars : Ptr) :
  fst (addUnqualifiedName blank ctx m chars 0) = hashOf [] /\
  (exists ctx' m' id,
     addQualifiedName2 blank ctx m chars 0 = Some (hashOf [], ctx', m') /\
     find ctx' (hashOf []) = Some id /\
     segmentCount id = 1 /\ textLength id = 0 /\ segments id = nullptr) /\
  (forall sc, sc < 2 ^ 32 ->
     exists ctx' m',
       addQualifiedName3 blank ctx m chars 0 sc = Some (hashOf [], ctx', m')).
Proof.
  split; [reflexivity|]. split.
  - unfold addQualifiedName2. cbn [N.to_nat countSegments].
    rewrite (addQualifiedName3_single blank ctx m chars 0 1) by lia. cbn zeta.
    change (readBytes (memcpy m (fst (alloc (stringArena ctx) 0)) chars 0) chars 0)
      with (@nil byte).
    do 3 eexists. split; [reflexivity|].
    split; [unfold find; cbn; apply lookup_insert_eq|]. repeat split.
  - intros sc Hsc.
    destruct (addQualifiedName3_result blank ctx m chars 0 sc Hsc)
      as (i & ctx' & m' & id & Hres & _).
    exists ctx', m'. rewrite Hres. repeat f_equal.
    destruct (N.leb_spec sc 1) as [Hsingle|Hmulti].
    + rewrite (addQualifiedName3_single blank ctx m chars 0 sc Hsingle) in Hres.
      cbn zeta in Hres. injection Hres as <- _ _. reflexivity.
    + destruct (addQualifiedName3_multi blank ctx m chars 0 sc Hmulti Hsc)
        as (m2 & _ & _ & Hres').
      cbn zeta in Hres'. rewrite Hres' in Hres. injection Hres as <- _ _.
      reflexivity.
Qed.

Lemma interning_empty_name_witness :
  exists ctx' m',
    addQualifiedName3 (hasher := fnv1a) (heap := packedChunks) zeroIdentifier
      newContext zeroMem 0 0 2 = Some (hashOf (hasher := fnv1a) [], ctx', m').
Proof.
  apply (interning_empty_name (hasher := fnv1a) (heap := packedChunks)
           zeroIdentifier newContext zeroMem 0).
  reflexivity.
Defined.

(** X12: the segment count that is stored.  [addQualifiedName] with an
    explicit count stores that count, and 1 when it is 0; the two-argument
    overload stores the number of ['.'] bytes of the name plus one. *)
Theorem stored_segment_count {hasher : Hasher} {heap : Malloc} (blank : Identifier)
    (ctx : Context) (m : Mem) (chars : Ptr) (count : Size) :
  (forall sc, sc < 2 ^ 32 ->
     exists i ctx' m' id,
       addQualifiedName3 blank ctx m chars count sc = Some (i, ctx', m') /\
       find ctx' i = Some id /\
       segmentCount id = N.max 1 sc) /\
  (count + 1 < 2 ^ 32 ->
     exists i ctx' m' id,
       addQualifiedName2 blank ctx m chars count = Some (i, ctx', m') /\
       find ctx' i = Some id /\
       segmentCount id = N.of_nat (dots (readBytes m chars count)) + 1).
Proof.
  assert (Hexplicit : forall sc, sc < 2 ^ 32 ->
     exists i ctx' m' id,
       addQualifiedName3 blank ctx m chars count sc = Some (i, ctx', m') /\
       find ctx' i = Some id /\
       segmentCount id = N.max 1 sc).
  { intros sc Hsc.
    destruct (addQualifiedName3_result blank ctx m chars count sc Hsc)
      as (i & ctx' & m' & id & Hres & Hctx & _ & _ & Hcount & _).
    exists i, ctx', m', id. split; [exact Hres|].
    split; [rewrite Hctx; unfold find; cbn; apply lookup_insert_eq | exact Hcount]. }
  split; [exact Hexplicit|].
  intros Hcount. unfold addQualifiedName2. rewrite countSegments_whole.
  assert (Hdots : (dots (readBytes m chars count) <= N.to_nat count)%nat).
  { unfold dots. etransitivity; [apply length_filter|].
    rewrite readBytes_length. lia. }
  destruct (Hexplicit (N.of_nat (dots (readBytes m chars count)) + 1))
    as (i & ctx' & m' & id & Hres & Hfind & Hsc); [lia|].
  exists i, ctx', m', id. split; [exact Hres|]. split; [exact Hfind|].
  rewrite Hsc. lia.
Qed.

Lemma stored_segment_count_witness :
  let m := storeBytes zeroMem 1000 abcdef in
  exists i ctx' m' id,
    addQualifiedName2 (hasher := fnv1a) (heap := packedChunks) zeroIdentifier
      newContext m 1000 8 = Some (i, ctx', m') /\
    find ctx' i = Some id /\
    segmentCount id = 3.
Proof.
  intros m.
  apply (stored_segment_count (hasher := fnv1a) (heap := packedChunks)
           zeroIdentifier newContext m 1000 8).
  reflexivity.
Defined.

(** X13: the first entry of the segment tables.  For every multi-segment
    name read from a buffer outside the arena block, entry 0 of the offset
    table is 0 and entry 0 of the hash table is the hash, taken byte by
    byte, of the bytes before the first ['.'] of the name (of the whole
    name when it has none). *)
Theorem first_segment_entry {hasher : Hasher} {heap : Malloc} (blank : Identifier)
    (ctx : Context) (m : Mem) (chars : Ptr) (count sc : Size) :
  1 < sc -> sc < 2 ^ 32 ->
  disjointRanges (chars, count) (nameBlock ctx count sc) ->
  exists i ctx' m' id,
    addQualifiedName3 blank ctx m chars count sc = Some (i, ctx', m') /\
    find ctx' i = Some id /\
    loadU32 m' (segments id) 0 = 0 /\
    loadU32 m' (segmentHashes id) 0 =
      hashBytewise (firstSegment (readBytes m chars count)).
Proof.
  intros Hmulti Hsc Hdisj.
  destruct (addQualifiedName3_tables blank ctx m chars count sc Hmulti Hsc Hdisj)
    as (i & ctx' & m' & id & Hres & Hfind & _ & Hseg & Hhash & _).
  exists i, ctx', m', id. repeat split; assumption.
Qed.

Lemma first_segment_entry_witness :
  let m := storeBytes zeroMem 1000 abcdef in
  exists i ctx' m' id,
    addQualifiedName3 (hasher := fnv1a) (heap := packedChunks) zeroIdentifier
      newContext m 1000 8 3 = Some (i, ctx', m') /\
    find ctx' i = Some id /\
    loadU32 m' (segments id) 0 = 0 /\
    loadU32 m' (segmentHashes id) 0 = hashBytewise (hasher := fnv1a) ["a"%byte].
Proof.
  intros m.
  apply (first_segment_entry (hasher := fnv1a) (heap := packedChunks)
           zeroIdentifier newContext m 1000 8 3).
  - reflexivity.
  - reflexivity.
  - assert (Hblock : nameBlock (heap := packedChunks) newContext 8 3 = (65536, 32))
      by reflexivity.
    rewrite Hblock. intros a [Ha Hb].
    unfold inRange in Ha, Hb. cbn [fst snd] in Ha, Hb. lia.
Defined.

(** X14: registrations of operators.  A second [addOp] for the same
    operator replaces the first, and leaves the context it would have left
    alone; registrations of different operators can be made in either
    order. *)
Theorem addOp_replaces_and_commutes (ctx : Context) (op1 op2 : Id)
    (p1 p2 : U16) (a1 a2 : Assoc) :
  findOp (addOp (addOp ctx op1 p1 a1) op1 p2 a2) op1
    = {| precedence := p2; associativity := a2 |} /\
  addOp (addOp ctx op1 p1 a1) op1 p2 a2 = addOp ctx op1 p2 a2 /\
  (op1 <> op2 ->
   addOp (addOp ctx op1 p1 a1) op2 p2 a2 = addOp (addOp ctx op2 p2 a2) op1 p1 a1 /\
   findOp (addOp (addOp ctx op1 p1 a1) op2 p2 a2) op1
     = {| precedence := p1; associativity := a1 |}).
Proof.
  unfold findOp, addOp. cbn. split; [|split].
  - now rewrite lookup_insert_eq.
  - now rewrite insert_insert_eq.
  - intros Hne. split.
    + f_equal. apply insert_insert_ne. congruence.
    + rewrite lookup_insert_ne by congruence. now rewrite lookup_insert_eq.
Qed.

Lemma addOp_replaces_and_commutes_witness :
  addOp (addOp newContext 5 3 Right) 7 1 Left = addOp (addOp newContext 7 1 Left) 5 3 Right /\
  findOp (addOp (addOp newContext 5 3 Right) 7 1 Left) 5
    = {| precedence := 3; associativity := Right |}.
Proof.
  apply (addOp_replaces_and_commutes newContext 5 7 3 1 Right Left).
  discriminate.
Defined.

(** X15: [addQualifiedName] never shares storage.  In a context whose
    string arena has served requests of at most [kChunkSize] bytes, two
    calls in a row whose requests also fit a chunk get blocks that do not
    overlap, so the two stored texts do not overlap either: a name interned
    again is copied again. *)
Theorem addQualifiedName3_blocks_disjoint {hasher : Hasher} {heap : Malloc}
    (blank : Identifier) (history : list Size) (ctx : Context) (m : Mem)
    (chars1 chars2 : Ptr) (count1 count2 sc1 sc2 : Size) :
  chunksDisjoint ->
  Forall (fun s => s <= kChunkSize) history ->
  stringArena ctx = snd (allocs newArena history) ->
  requestSize count1 sc1 <= kChunkSize -> requestSize count2 sc2 <= kChunkSize ->
  sc1 < 2 ^ 32 -> sc2 < 2 ^ 32 ->
  exists i1 ctx1 m1 id1 i2 ctx2 m2 id2,
    addQualifiedName3 blank ctx m chars1 count1 sc1 = Some (i1, ctx1, m1) /\
    addQualifiedName3 blank ctx1 m1 chars2 count2 sc2 = Some (i2, ctx2, m2) /\
    find ctx1 i1 = Some id1 /\ find ctx2 i2 = Some id2 /\
    disjointRanges (nameBlock ctx count1 sc1) (nameBlock ctx1 count2 sc2) /\
    disjointRanges (text id1, count1) (text id2, count2).
Proof.
  intros Hchunks Hhistory Harena Hfit1 Hfit2 Hsc1 Hsc2.
  destruct (addQualifiedName3_result blank ctx m chars1 count1 sc1 Hsc1)
    as (i1 & ctx1 & m1 & id1 & Hres1 & Hctx1 & Htext1 & _).
  destruct (addQualifiedName3_result blank ctx1 m1 chars2 count2 sc2 Hsc2)
    as (i2 & ctx2 & m2 & id2 & Hres2 & Hctx2 & Htext2 & _).
  exists i1, ctx1, m1, id1, i2, ctx2, m2, id2.
  split; [exact Hres1|]. split; [exact Hres2|].
  split; [rewrite Hctx1; unfold find; cbn; apply lookup_insert_eq|].
  split; [rewrite Hctx2; unfold find; cbn; apply lookup_insert_eq|].
  destruct (allocs_inv Hchunks history Hhistory) as [Hinv _].
  rewrite <- Harena in Hinv.
  destruct (alloc_step Hchunks _ _ _ Hinv Hfit1) as [Hinv1 _].
  destruct (alloc_step Hchunks _ _ _ Hinv1 Hfit2) as [_ Hnew].
  assert (Hblocks : disjointRanges (nameBlock ctx count1 sc1) (nameBlock ctx1 count2 sc2)).
  { unfold nameBlock at 2. rewrite Hctx1. cbn [stringArena].
    apply Hnew. apply in_or_app. right. left. reflexivity. }
  split; [exact Hblocks|].
  assert (Hsize1 : count1 <= requestSize count1 sc1).
  { unfold requestSize. destruct (sc1 <=? 1); lia. }
  assert (Hsize2 : count2 <= requestSize count2 sc2).
  { unfold requestSize. destruct (sc2 <=? 1); lia. }
  intros a [Ha1 Ha2]. apply (Hblocks a).
  unfold inRange in *. cbn [fst snd] in *.
  unfold nameBlock in *. cbn [fst snd] in *. lia.
Qed.

Lemma addQualifiedName3_blocks_disjoint_witness :
  let m := storeBytes zeroMem 1000 abcdef in
  exists i1 ctx1 m1 id1 i2 ctx2 m2 id2,
    addQualifiedName3 (hasher := fnv1a) (heap := packedChunks) zeroIdentifier
      newContext m 1000 8 3 = Some (i1, ctx1, m1) /\
    addQualifiedName3 (hasher := fnv1a) (heap := packedChunks) zeroIdentifier
      ctx1 m1 1000 8 3 = Some (i2, ctx2, m2) /\
    find ctx1 i1 = Some id1 /\ find ctx2 i2 = Some id2 /\
    disjointRanges (nameBlock (heap := packedChunks) newContext 8 3)
                   (nameBlock (heap := packedChunks) ctx1 8 3) /\
    disjointRanges (text id1, 8) (text id2, 8).
Proof.
  intros m.
  apply (addQualifiedName3_blocks_disjoint (hasher := fnv1a) (heap := packedChunks)
           zeroIdentifier [] newContext m 1000 1000 8 8 3 3).
  - intros i j Hij. cbn. lia.
  - constructor.
  - reflexivity.
  - apply N.leb_le. reflexivity.
  - apply N.leb_le. reflexivity.
  - reflexivity.
  - reflexivity.
Defined.

Section TableInvariant.
Context {hasher : Hasher} {heap : Malloc}.
Variable blankIdentifier : Identifier.

(** A call leaves the identifier table alone or binds one key, and binds a
    single-segment [Identifier] to its own segment hash. *)
Lemma call_identifiers ctx m c ctx' m' :
  call blankIdentifier (ctx, m) c = Some (ctx', m') ->
  identifiers ctx' = identifiers ctx \/
  exists i id,
    identifiers ctx' = <[i := id]> (identifiers ctx) /\
    (segmentCount id = 1 -> segmentHash id = i).
Proof.
  destruct c as [op prec assoc|chars count|chars count sc|chars count|id|p b];
    cbn -[addQualifiedName3 addUnqualifiedName addIdentifier].
  - intros Heq. injection Heq as <- _. left. reflexivity.
  - intros Heq. injection Heq as <- _. right.
    destruct (addUnqualifiedName_binds blankIdentifier ctx m chars count)
      as (id & Hids & Hkey).
    eauto.
  - destruct (addQualifiedName3 _ _ _ _ _ _) as [[[i c1] m1]|] eqn:E; [|discriminate].
    intros Heq. injection Heq as <- <-. right.
    destruct (addQualifiedName3_binds _ _ _ _ _ _ _ _ _ E) as (id & Hids & _ & Hkey).
    eauto.
  - unfold addQualifiedName2.
    destruct (addQualifiedName3 _ _ _ _ _ _) as [[[i c1] m1]|] eqn:E; [|discriminate].
    intros Heq. injection Heq as <- <-. right.
    destruct (addQualifiedName3_binds _ _ _ _ _ _ _ _ _ E) as (id' & Hids & _ & Hkey).
    eauto.
  - intros Heq. injection Heq as <- _. right.
    destruct (addIdentifier_binds ctx m id) as (Hids & _ & _ & Hkey). eauto.
  - intros Heq. injection Heq as <- _. left. reflexivity.
Qed.

Lemma calls_keep_keys cs : forall ctx m ctx' m',
  (forall i id, find ctx i = Some id -> segmentCount id = 1 -> segmentHash id = i) ->
  calls blankIdentifier (ctx, m) cs = Some (ctx', m') ->
  forall i id, find ctx' i = Some id -> segmentCount id = 1 -> segmentHash id = i.
Proof.
  induction cs as [|c cs IH]; intros ctx m ctx' m' Hinv Hrun.
  - cbn in Hrun. injection Hrun as <- _. exact Hinv.
  - cbn [calls] in Hrun.
    destruct (call blankIdentifier (ctx, m) c) as [[ctx1 m1]|] eqn:Hc; [|discriminate].
    apply (IH ctx1 m1 ctx' m'); [|exact Hrun].
    intros i id Hfind Hsingle. unfold find in Hfind.
    destruct (call_identifiers _ _ _ _ _ Hc) as [Hsame|(k & idk & Hids & Hkey)].
    + rewrite Hsame in Hfind. exact (Hinv i id Hfind Hsingle).
    + rewrite Hids in Hfind. destruct (decide (k = i)) as [->|Hne].
      * rewrite lookup_insert_eq in Hfind. injection Hfind as <-. exact (Hkey Hsingle).
      * rewrite lookup_insert_ne in Hfind by exact Hne. exact (Hinv i id Hfind Hsingle).
Qed.
End TableInvariant.

(** X16: keys and entries agree.  After any sequence of calls on a new
    context, every single-segment [Identifier] in the table is found under
    its own [segmentHash]. *)
Theorem single_segment_entries_keyed_by_hash {hasher : Hasher} {heap : Malloc}
    (blank : Identifier) (m : Mem) (cs : list Call) (ctx : Context) (m' : Mem) :
  calls blank (newContext, m) cs = Some (ctx, m') ->
  forall i id, find ctx i = Some id -> segmentCount id = 1 -> segmentHash id = i.
Proof.
  intros Hrun. apply (calls_keep_keys blank cs newContext m ctx m'); [|exact Hrun].
  intros i id Hfind. unfold find in Hfind. cbn in Hfind.
  rewrite lookup_empty in Hfind. discriminate Hfind.
Qed.

Lemma single_segment_entries_keyed_by_hash_witness :
  let m := storeBytes zeroMem 1000 abcdef in
  let cs := [CallAddUnqualifiedName 1000 1; CallAddOp 5 3 Right;
             CallAddQualifiedName2 1002 2] in
  match calls (hasher := fnv1a) (heap := packedChunks) zeroIdentifier (newContext, m) cs with
  | Some (ctx, _) =>
      exists id, find ctx (hashOf (hasher := fnv1a) ["b"; "c"]%byte) = Some id /\
        segmentCount id = 1 /\
        segmentHash id = hashOf (hasher := fnv1a) ["b"; "c"]%byte
  | None => False
  end.
Proof.
  intros m cs.
  pose (look := fun r : option (Context * Mem) =>
          match r with
          | Some (c, _) => find c (hashOf (hasher := fnv1a) ["b"; "c"]%byte)
          | None => None
          end).
  assert (Hfind : look (calls (hasher := fnv1a) (heap := packedChunks)
                          zeroIdentifier (newContext, m) cs)
                  = Some {| text := 65536; textLength := 2; segmentCount := 1;
                            segments := 0; segmentHashes := 0;
                            segmentHash := 1043048946 |}) by reflexivity.
  destruct (calls zeroIdentifier (newContext, m) cs) as [[ctx m']|] eqn:E.
  - cbn [look] in Hfind. eexists. split; [exact Hfind|]. split; [reflexivity|].
    exact (single_segment_entries_keyed_by_hash (hasher := fnv1a) (heap := packedChunks)
             zeroIdentifier m cs ctx m' E _ _ Hfind eq_refl).
  - discriminate Hfind.
Defined.

(** Requests that fit what is left of the current chunk are served from
    it, one after the other. *)
Lemma allocs_packed {heap : Malloc} sizes : forall a,
  buffer a + totalSize sizes <= max a ->
  allocs a sizes =
    (packed (buffer a) sizes,
     {| buffer := buffer a + totalSize sizes; max := max a; buffers := buffers a |}).
Proof.
  induction sizes as [|s sizes IH]; intros a Hfit.
  - cbn. rewrite N.add_0_r. destruct a; reflexivity.
  - change (totalSize (s :: sizes)) with (s + totalSize sizes) in *.
    rewrite allocs_cons. unfold alloc.
    destruct (N.ltb_spec (max a) (buffer a + s)) as [Hnew|_]; [lia|].
    cbn [fst snd buffer max buffers].
    set (a1 := {| buffer := buffer a + s; max := max a; buffers := buffers a |}).
    assert (Hpre : buffer a1 + totalSize sizes <= max a1) by (cbn [a1 buffer max]; lia).
    rewrite (IH a1 Hpre). cbn [fst snd a1 buffer max buffers packed].
    replace (buffer a + s + totalSize sizes) with (buffer a + (s + totalSize sizes)) by lia.
    reflexivity.
Qed.

(** X17: one chunk serves as long as it can.  On a new arena, requests
    whose sizes sum to at most [kChunkSize], the first of them not empty,
    are all served from the first chunk, back to back from its start and
    with no gap, and the arena asks for no second chunk. *)
Theorem allocs_pack_first_chunk {heap : Malloc} (s : Size) (sizes : list Size) :
  0 < s -> totalSize (s :: sizes) <= kChunkSize ->
  fst (allocs newArena (s :: sizes)) = packed (malloc 0) (s :: sizes) /\
  buffers (snd (allocs newArena (s :: sizes))) = [malloc 0].
Proof.
  intros Hpos Hfit. change (totalSize (s :: sizes)) with (s + totalSize sizes) in Hfit.
  rewrite allocs_cons.
  destruct (alloc_new_chunk newArena s) as [Hp Hbufs]; [cbn; lia|].
  assert (Ha1 : snd (alloc newArena s) =
                {| buffer := malloc 0 + s; max := malloc 0 + kChunkSize;
                   buffers := [malloc 0] |}).
  { unfold alloc. destruct (N.ltb_spec (max newArena) (buffer newArena + s)) as [_|Hno];
      [reflexivity | cbn in Hno; lia]. }
  rewrite Hp, Ha1. cbn [length buffers newArena].
  rewrite allocs_packed by (cbn [buffer max]; lia).
  cbn [fst snd buffer buffers packed]. split; reflexivity.
Qed.

Lemma allocs_pack_first_chunk_witness :
  fst (allocs (heap := packedChunks) newArena [10; 0; 4000; 86]) =
    [(65536, 10); (65546, 0); (65546, 4000); (69546, 86)] /\
  buffers (snd (allocs (heap := packedChunks) newArena [10; 0; 4000; 86])) = [65536].
Proof.
  apply (allocs_pack_first_chunk (heap := packedChunks) 10 [0; 4000; 86]).
  - reflexivity.
  - cbn. lia.
Defined.

(** * The arena when requests exceed a chunk *)

Section ArenaWordsAgree.
Context {heap : Malloc}.
Variable w : N.

Lemma allocWord_alloc a s : noWrapStep w a s -> allocWord w a s = alloc a s.
Proof.
  intros [Hsum Hnew]. unfold allocWord, alloc, wrapWord.
  rewrite (N.mod_small (buffer a + s)) by exact Hsum.
  destruct (N.ltb_spec (max a) (buffer a + s)) as [Hlt|Hge]; cbn [buffer max buffers].
  - destruct (Hnew Hlt) as [Hmax Hbump]. now rewrite !N.mod_small by assumption.
  - now rewrite N.mod_small by exact Hsum.
Qed.

Lemma allocsWord_cons a s sizes :
  allocsWord w a (s :: sizes) =
    ((fst (allocWord w a s), s) :: fst (allocsWord w (snd (allocWord w a s)) sizes),
     snd (allocsWord w (snd (allocWord w a s)) sizes)).
Proof.
  cbn -[allocWord]. destruct (allocWord w a s) as [p a1]. cbn [fst snd].
  destruct (allocsWord w a1 sizes) as [rs a2]. reflexivity.
Qed.

Lemma allocsWord_allocs sizes : forall a,
  noWrap w a sizes -> allocsWord w a sizes = allocs a sizes.
Proof.
  induction sizes as [|s sizes IH]; intros a Hrun.
  - reflexivity.
  - destruct Hrun as [Hstep Hrest]. rewrite allocsWord_cons, allocs_cons.
    rewrite (allocWord_alloc a s Hstep) in *. now rewrite (IH _ Hrest).
Qed.

Lemma noWrap_app l1 : forall a l2,
  noWrap w a (l1 ++ l2) <-> noWrap w a l1 /\ noWrap w (snd (allocsWord w a l1)) l2.
Proof.
  induction l1 as [|s l1 IH]; intros a l2.
  - cbn. tauto.
  - rewrite allocsWord_cons. cbn [app noWrap snd]. rewrite IH. tauto.
Qed.

(** The sizes of the ranges returned are the sizes asked for. *)
Lemma allocs_sizes sizes : forall a, map snd (fst (allocs a sizes)) = sizes.
Proof.
  induction sizes as [|s sizes IH]; intros a.
  - reflexivity.
  - rewrite allocs_cons. cbn [fst map snd]. now rewrite IH.
Qed.
End ArenaWordsAgree.

Lemma pairwiseDisjointOn_snoc P rs r :
  pairwiseDisjointOn P rs ->
  (forall r', In r' rs -> P r' -> P r -> disjointRanges r' r) ->
  pairwiseDisjointOn P (rs ++ [r]).
Proof.
  intros Hrs Hr i j r1 r2 Hij H1 H2 P1 P2.
  assert (Hsym : forall x y, disjointRanges x y -> disjointRanges y x).
  { intros x y Hxy a [Hy Hx]. apply (Hxy a). split; assumption. }
  destruct (decide (i < length rs)%nat) as [Hi|Hi];
  destruct (decide (j < length rs)%nat) as [Hj|Hj].
  - rewrite lookup_app_l in H1, H2 by assumption. eapply Hrs; eassumption.
  - rewrite lookup_app_l in H1 by assumption.
    rewrite lookup_app_r in H2 by lia.
    destruct (j - length rs)%nat eqn:E; cbn in H2; [|discriminate].
    inversion H2; subst r2. apply Hr; [|assumption|assumption].
    apply list_elem_of_In. eapply list_elem_of_lookup_2. eassumption.
  - rewrite lookup_app_l in H2 by assumption.
    rewrite lookup_app_r in H1 by lia.
    destruct (i - length rs)%nat eqn:E; cbn in H1; [|discriminate].
    inversion H1; subst r1. apply Hsym. apply Hr; [|assumption|assumption].
    apply list_elem_of_In. eapply list_elem_of_lookup_2. eassumption.
  - rewrite lookup_app_r in H1 by lia. rewrite lookup_app_r in H2 by lia.
    destruct (i - length rs)%nat eqn:E1; cbn in H1; [|discriminate].
    destruct (j - length rs)%nat eqn:E2; cbn in H2; [|discriminate].
    lia.
Qed.

Section ArenaInvariantAny.
Context {heap : Malloc}.
Hypothesis chunks : chunksDisjoint.

Lemma inSize_snoc rs p s :
  inSize (rs ++ [(p, s)]) = inSize rs ++ (if s <=? kChunkSize then [(p, s)] else []).
Proof. unfold inSize. rewrite List.filter_app. reflexivity. Qed.

Lemma arenaInvAny_new : arenaInvAny newArena [].
Proof.
  split; cbn.
  - reflexivity.
  - intros _. split; reflexivity.
  - intros k Hk. discriminate.
  - intros r [].
  - intros j. split; [lia|]. split; [intros Hk; discriminate | reflexivity].
Qed.

Lemma alloc_step_any a rs s :
  arenaInvAny a rs ->
  arenaInvAny (snd (alloc a s)) (rs ++ [(fst (alloc a s), s)]) /\
  (forall r, In r rs -> snd r <= kChunkSize -> s <= kChunkSize ->
     disjointRanges r (fst (alloc a s), s)).
Proof.
  intros [Hbufs Hfresh Hcur Hranges Htotal].
  unfold alloc. destruct (N.ltb_spec (max a) (buffer a + s)) as [Hnew|Hfit];
    cbn [fst snd buffer max buffers].
  - (* a new chunk *)
    set (n := length (buffers a)) in *.
    assert (Hlen : length (buffers a ++ [malloc n]) = S n).
    { rewrite length_app. cbn. lia. }
    split.
    + split; cbn [buffer max buffers]; rewrite ?Hlen.
      * rewrite seq_S, map_app. cbn. now rewrite <- Hbufs.
      * discriminate.
      * intros k Hk. injection Hk as <-. lia.
      * intros r Hr Hin. apply in_app_or in Hr. destruct Hr as [Hr|[<-|[]]].
        -- destruct (Hranges r Hr Hin) as [Hz|(j & Hj & Hlo & Hhi & _)]; [now left|].
           right. exists j. repeat split; try lia.
        -- cbn [fst snd] in *. right. exists n. repeat split; lia.
      * intros j. rewrite inSize_snoc, chunkBytes_app.
        destruct (Htotal j) as (Hle & Hlast & Hnone).
        destruct (N.leb_spec s kChunkSize) as [Hin|Hover].
        -- rewrite chunkBytes_one.
           destruct (decide (j = n)) as [->|Hjn].
           ++ rewrite Hnone by lia. destruct (inChunkb n (malloc n)); repeat split; lia.
           ++ replace (inChunkb j (malloc n)) with false.
              ** repeat split; lia.
              ** symmetry. apply not_true_is_false. rewrite inChunkb_true.
                 unfold inChunk. destruct (chunks j n Hjn); lia.
        -- change (chunkBytes j []) with 0. rewrite N.add_0_r.
           destruct (decide (j = n)) as [->|Hjn].
           ++ rewrite Hnone by lia. repeat split; lia.
           ++ repeat split; lia.
    + intros r Hr Hin Hs a0 [Hin1 Hin2]. unfold inRange in *. cbn [fst snd] in *.
      destruct (Hranges r Hr Hin) as [Hz|(j & Hj & Hlo & Hhi & _)]; [lia|].
      assert (Hjn : j <> n) by lia.
      destruct (chunks j n Hjn); lia.
  - (* the current chunk *)
    destruct a as [buf mx bufs]; cbn [buffer max buffers] in *.
    assert (Hsmall : s <= kChunkSize).
    { destruct (length bufs) as [|k] eqn:Hn.
      - destruct (Hfresh eq_refl). lia.
      - destruct (Hcur k eq_refl). lia. }
    split.
    + split; cbn [buffer max buffers].
      * assumption.
      * intros Hn. destruct (Hfresh Hn) as [-> ->]. split; lia.
      * intros k Hk. destruct (Hcur k Hk). split; lia.
      * intros r Hr Hin. apply in_app_or in Hr. destruct Hr as [Hr|[<-|[]]].
        -- destruct (Hranges r Hr Hin) as [Hz|(j & Hj & Hlo & Hhi & Hl)]; [now left|].
           right. exists j. repeat split; lia.
        -- cbn [fst snd]. destruct (length bufs) as [|k] eqn:Hn.
           ++ left. destruct (Hfresh eq_refl). lia.
           ++ destruct (Hcur k eq_refl) as [Hmx Hbuf].
              right. exists k. repeat split; try lia.
      * intros j. rewrite inSize_snoc, chunkBytes_app.
        replace (s <=? kChunkSize) with true by (symmetry; now apply N.leb_le).
        rewrite chunkBytes_one.
        destruct (Htotal j) as (Hle & Hlast & Hnone).
        destruct (N.eq_dec s 0) as [->|Hs0].
        { replace (if inChunkb j buf then 0 else 0) with 0
            by (destruct (inChunkb j buf); reflexivity).
          rewrite !N.add_0_r. repeat split; try assumption. }
        destruct (length bufs) as [|k] eqn:Hn.
        { destruct (Hfresh eq_refl). lia. }
        destruct (Hcur k eq_refl) as [Hmx Hbuf].
        assert (Hk : inChunk k buf) by (unfold inChunk; lia).
        destruct (decide (j = k)) as [->|Hjk].
        -- replace (inChunkb k buf) with true by (symmetry; now apply inChunkb_true).
           specialize (Hlast eq_refl). repeat split; try lia.
        -- replace (inChunkb j buf) with false.
           ++ repeat split; lia.
           ++ symmetry. apply not_true_is_false. rewrite inChunkb_true.
              apply (chunk_other chunks k j); auto.
    + intros r Hr Hin _ a0 [Hin1 Hin2]. unfold inRange in *. cbn [fst snd] in *.
      destruct (Hranges r Hr Hin) as [Hz|(j & Hj & Hlo & Hhi & Hl)]; [lia|].
      destruct (length bufs) as [|k] eqn:Hn; [lia|].
      destruct (Hcur k eq_refl) as [Hmx Hbuf].
      destruct (decide (j = k)) as [->|Hjk].
      * specialize (Hl eq_refl). lia.
      * destruct (chunks j k Hjk); lia.
Qed.

Lemma allocs_inv_any sizes :
  arenaInvAny (snd (allocs newArena sizes)) (fst (allocs newArena sizes)) /\
  pairwiseDisjointOn (fun r => snd r <= kChunkSize) (fst (allocs newArena sizes)).
Proof.
  induction sizes as [|s sizes IH] using rev_ind.
  - cbn. split; [apply arenaInvAny_new|].
    intros i j r1 r2 _ Hi; destruct i; discriminate.
  - destruct IH as [Hinv Hdisj].
    rewrite allocs_app. destruct (allocs newArena sizes) as [rs a1].
    cbn [fst snd] in *. cbn -[alloc].
    destruct (alloc_step_any a1 rs s Hinv) as [Hinv' Hnew].
    destruct (alloc a1 s) as [p a2]. cbn [fst snd] in *.
    split; [assumption|]. apply pairwiseDisjointOn_snoc; [assumption|].
    intros r' Hr' Hin Hs. apply Hnew; assumption.
Qed.
End ArenaInvariantAny.

(** With pointers of 64 bits and chunks of 4096 bytes from 65536 on, a
    request of [2^64 - 1] bytes after one of 10 bytes wraps the sum of the
    test: no chunk is opened, the range returned starts at the bump pointer
    and the bump pointer ends one byte lower, so that the byte handed out
    next lies in the range of the first call. *)
Example allocsWord_wraps :
  allocsWord (heap := packedChunks) 64 newArena [10; 2 ^ 64 - 1; 1] =
    ([(65536, 10); (65546, 2 ^ 64 - 1); (65545, 1)],
     {| buffer := 65546; max := 69632; buffers := [65536] |}) /\
  ~ noWrap (heap := packedChunks) 64 newArena [10; 2 ^ 64 - 1; 1] /\
  inRange (65536, 10) 65545 /\ inRange (65545, 1) 65545.
Proof.
  split; [reflexivity|]. split.
  - intros (_ & (Hsum & _) & _). revert Hsum. vm_compute. discriminate.
  - unfold inRange. cbn [fst snd]. lia.
Qed.

(** C2 (as amended): in a run of calls of [Arena::alloc] none of whose
    pointer sums wraps, and whatever the sizes asked for, the ranges
    returned for requests of at most [kChunkSize] bytes are pairwise
    disjoint, every non-empty one of them lies inside one chunk the arena
    holds, and the bytes they take from any chunk never exceed [kChunkSize];
    when no request exceeds [kChunkSize] all ranges are pairwise disjoint.
    A request larger than [kChunkSize] opens a new chunk of [kChunkSize]
    bytes like any other, and the range returned for it runs past the end
    of that chunk. *)
Theorem alloc_ranges_disjoint_within_chunks {heap : Malloc} (w : N) :
  chunksDisjoint ->
  (forall sizes : list Size,
     noWrap w newArena sizes ->
     let rs := fst (allocsWord w newArena sizes) in
     let a := snd (allocsWord w newArena sizes) in
     pairwiseDisjointOn (fun r => snd r <= kChunkSize) rs /\
     (Forall (fun s => s <= kChunkSize) sizes -> pairwiseDisjoint rs) /\
     (forall r, In r rs -> snd r <= kChunkSize -> snd r <> 0 ->
        exists j : nat, buffers a !! j = Some (malloc j) /\
          malloc j <= fst r /\ fst r + snd r <= malloc j + kChunkSize) /\
     (forall j : nat, chunkBytes j (inSize rs) <= kChunkSize)) /\
  (forall (earlier : list Size) (s : Size),
     kChunkSize < s ->
     noWrap w newArena (earlier ++ [s]) ->
     let a := snd (allocsWord w newArena earlier) in
     fst (allocWord w a s) = malloc (length (buffers a)) /\
     buffers (snd (allocWord w a s)) = buffers a ++ [fst (allocWord w a s)] /\
     max (snd (allocWord w a s)) = fst (allocWord w a s) + kChunkSize /\
     max (snd (allocWord w a s)) < fst (allocWord w a s) + s).
Proof.
  intros Hchunks. split.
  - intros sizes Hrun. rewrite (allocsWord_allocs w sizes newArena Hrun).
    intros rs a.
    destruct (allocs_inv_any Hchunks sizes) as [Hinv Hdisj].
    fold rs a in Hinv, Hdisj. split; [assumption|]. split; [|split].
    + intros Hsizes i j r1 r2 Hij H1 H2.
      assert (Hin : forall r, In r rs -> snd r <= kChunkSize).
      { intros r Hr. rewrite List.Forall_forall in Hsizes. apply Hsizes.
        rewrite <- (allocs_sizes sizes newArena). fold rs.
        apply in_map. exact Hr. }
      apply (Hdisj i j r1 r2 Hij H1 H2); apply Hin; apply list_elem_of_In;
        eapply list_elem_of_lookup_2; eassumption.
    + intros r Hr Hin Hnz.
      destruct (any_ranges _ _ Hinv r Hr Hin) as [Hz|(j & Hj & Hlo & Hhi & _)];
        [contradiction|].
      exists j. split; [|split; assumption].
      rewrite (any_buffers _ _ Hinv).
      rewrite list_lookup_fmap, lookup_seq_lt by assumption. reflexivity.
    + intros j. apply (any_total _ _ Hinv j).
  - intros earlier s Hs Hrun.
    apply (noWrap_app w) in Hrun. destruct Hrun as [Hearlier [Hstep _]].
    rewrite (allocsWord_allocs w earlier newArena Hearlier) in *.
    intros a. subst a. rewrite (allocWord_alloc w _ s Hstep).
    apply alloc_oversized; [|exact Hs].
    apply allocs_bound. cbn. lia.
Qed.

Lemma alloc_ranges_disjoint_within_chunks_witness :
  (let rs := fst (allocsWord (heap := packedChunks) 64 newArena [0; 10; 5000; 4086; 1]) in
   let a := snd (allocsWord (heap := packedChunks) 64 newArena [0; 10; 5000; 4086; 1]) in
   pairwiseDisjointOn (fun r => snd r <= kChunkSize) rs /\
   (forall r, In r rs -> snd r <= kChunkSize -> snd r <> 0 ->
      exists j : nat, buffers a !! j = Some (malloc j) /\
        malloc j <= fst r /\ fst r + snd r <= malloc j + kChunkSize) /\
   (forall j : nat, chunkBytes j (inSize rs) <= kChunkSize)) /\
  pairwiseDisjoint (fst (allocsWord (heap := packedChunks) 64 newArena [0; 10; 4086; 0; 1])) /\
  (let a := snd (allocsWord (heap := packedChunks) 64 newArena [10; 20]) in
   fst (allocWord 64 a 5000) = malloc (length (buffers a)) /\
   buffers (snd (allocWord 64 a 5000)) = buffers a ++ [fst (allocWord 64 a 5000)] /\
   max (snd (allocWord 64 a 5000)) = fst (allocWord 64 a 5000) + kChunkSize /\
   max (snd (allocWord 64 a 5000)) < fst (allocWord 64 a 5000) + 5000).
Proof.
  assert (Hchunks : chunksDisjoint (heap := packedChunks)).
  { intros i j Hij. cbn. lia. }
  destruct (alloc_ranges_disjoint_within_chunks (heap := packedChunks) 64 Hchunks)
    as [Hany Hlarge].
  split; [|split].
  - assert (Hrun : noWrap (heap := packedChunks) 64 newArena [0; 10; 5000; 4086; 1]).
    { vm_compute. repeat split; intros; reflexivity. }
    destruct (Hany [0; 10; 5000; 4086; 1] Hrun) as (Hdisj & _ & Hin & Htotal).
    split; [exact Hdisj|]. split; [exact Hin|exact Htotal].
  - assert (Hrun : noWrap (heap := packedChunks) 64 newArena [0; 10; 4086; 0; 1]).
    { vm_compute. repeat split; intros; reflexivity. }
    destruct (Hany [0; 10; 4086; 0; 1] Hrun) as (_ & Hall & _).
    apply Hall. repeat constructor; cbn; lia.
  - apply (Hlarge [10; 20] 5000).
    + reflexivity.
    + vm_compute. repeat split; intros; reflexivity.
Defined.

(** X6: in a run none of whose pointer sums wraps, the chunk opened for a
    request larger than [kChunkSize] serves that request only: whatever
    was asked before, the call that follows it opens a new chunk, even for
    zero bytes. *)
Theorem alloc_after_oversized_opens_chunk {heap : Malloc} (w : N)
    (earlier : list Size) (s next : Size) :
  kChunkSize < s ->
  noWrap w newArena (earlier ++ [s; next]) ->
  let a := snd (allocsWord w newArena earlier) in
  let a1 := snd (allocWord w a s) in
  fst (allocWord w a1 next) = malloc (length (buffers a1)) /\
  buffers (snd (allocWord w a1 next)) =
    buffers a ++ [fst (allocWord w a s); fst (allocWord w a1 next)].
Proof.
  intros Hs Hrun.
  apply (noWrap_app w) in Hrun. destruct Hrun as [Hearlier (Hstep & Hnext & _)].
  rewrite (allocsWord_allocs w earlier newArena Hearlier) in *.
  intros a a1. subst a1 a.
  rewrite (allocWord_alloc w _ s Hstep) in *.
  rewrite (allocWord_alloc w _ next Hnext).
  set (a := snd (allocs newArena earlier)). set (a1 := snd (alloc a s)).
  assert (Hbound : max a <= buffer a + kChunkSize).
  { apply allocs_bound. cbn. lia. }
  destruct (alloc_oversized a s Hbound Hs) as (_ & Hbufs & Hmax & Hover).
  fold a1 in Hbufs, Hmax, Hover.
  assert (Hbuf : buffer a1 = fst (alloc a s) + s).
  { subst a1. unfold alloc.
    destruct (max a <? buffer a + s); reflexivity. }
  destruct (alloc_new_chunk a1 next) as [Hp Hgrow]; [lia|].
  split; [exact Hp|].
  rewrite Hgrow, Hp, Hbufs, <- app_assoc. reflexivity.
Qed.

Lemma alloc_after_oversized_opens_chunk_witness :
  let a1 := snd (allocWord (heap := packedChunks) 64 newArena 5000) in
  fst (allocWord (heap := packedChunks) 64 a1 0) = 69632.
Proof.
  intros a1.
  apply (alloc_after_oversized_opens_chunk (heap := packedChunks) 64 [] 5000 0).
  - reflexivity.
  - vm_compute. repeat split; intros; reflexivity.
Defined.

(** * What a call writes, and interning twice *)

(** X9: [addQualifiedName] writes inside the block it took from the string
    arena and nowhere else: every byte at an address outside that block,
    and every [U32] cell none of whose four bytes is in the block, is after
    the call what it was before. *)
Theorem addQualifiedName3_writes_in_block {hasher : Hasher} {heap : Malloc}
    (blank : Identifier) (ctx : Context) (m : Mem) (chars : Ptr) (count sc : Size) :
  sc < 2 ^ 32 ->
  exists i ctx' m',
    addQualifiedName3 blank ctx m chars count sc = Some (i, ctx', m') /\
    (forall a, ~ inRange (nameBlock ctx count sc) a -> bytes m' a = bytes m a) /\
    (forall a,
       a + sizeofU32 <= fst (nameBlock ctx count sc) \/
       fst (nameBlock ctx count sc) + snd (nameBlock ctx count sc) <= a ->
       words m' a = words m a).
Proof.
  intros Hsc.
  destruct (addQualifiedName3_result blank ctx m chars count sc Hsc)
    as (i & ctx' & m' & id & Hres & _ & Htext & _ & _ & _ & _ & Hbytes & Hwords & Hsingle).
  exists i, ctx', m'. split; [exact Hres|].
  unfold inRange, nameBlock, requestSize, sizeofU32 in *. cbn [fst snd] in *.
  destruct (N.leb_spec sc 1) as [Hle|Hgt].
  - split.
    + intros a Hout. rewrite Hbytes. apply bytes_memcpy_outside. lia.
    + intros a _. now rewrite (Hsingle Hle).
  - split.
    + intros a Hout. rewrite Hbytes. apply bytes_memcpy_outside. lia.
    + intros a Hout. apply Hwords. lia.
Qed.

Lemma addQualifiedName3_writes_in_block_witness :
  let m := storeBytes zeroMem 1000 abcdef in
  exists i ctx' m',
    addQualifiedName3 (hasher := fnv1a) (heap := packedChunks) zeroIdentifier
      newContext m 1000 8 3 = Some (i, ctx', m') /\
    readBytes m' 1000 8 = abcdef /\ bytes m' 65568 = x00 /\
    words m' 65532 = 0 /\ words m' 65568 = 0.
Proof.
  intros m.
  assert (Hsc : 3 < 2 ^ 32) by reflexivity.
  destruct (addQualifiedName3_writes_in_block (hasher := fnv1a) (heap := packedChunks)
              zeroIdentifier newContext m 1000 8 3 Hsc)
    as (i & ctx' & m' & Hres & Hbytes & Hwords).
  exists i, ctx', m'. split; [exact Hres|].
  assert (Hblock : nameBlock (heap := packedChunks) newContext 8 3 = (65536, 32))
    by reflexivity.
  rewrite Hblock in Hbytes, Hwords. cbn [fst snd] in Hwords.
  assert (Houtside : forall a, a < 65536 \/ 65568 <= a -> ~ inRange (65536, 32) a).
  { intros a Ha [Hlo Hhi]. cbn [fst snd] in Hlo, Hhi. lia. }
  split; [|split; [|split]].
  - change abcdef with (readBytes m 1000 8). apply readBytes_ext.
    intros a Ha. apply Hbytes. apply Houtside. lia.
  - apply (Hbytes 65568). apply Houtside. lia.
  - apply (Hwords 65532). left. reflexivity.
  - apply (Hwords 65568). right. reflexivity.
Defined.

(** X18: interning the same buffer twice through [addUnqualifiedName],
    with the memory as it was.  The second call returns the same [Id],
    allocates nothing, leaves the operators and every other entry alone,
    and rewrites the entry with an [Identifier] that has the same [text],
    [textLength], [segmentCount], [segments] and [segmentHash].
    [segmentHashes] is assigned by neither call: each entry holds what its
    own [Identifier] held when it was declared, and the second call leaves
    the context exactly as the first left it when those two values are
    the same. *)
Theorem addUnqualifiedName_idempotent {hasher : Hasher} (blank1 blank2 : Identifier)
    (ctx : Context) (m : Mem) (chars : Ptr) (count : Size) :
  let i := fst (addUnqualifiedName blank1 ctx m chars count) in
  let ctx1 := snd (addUnqualifiedName blank1 ctx m chars count) in
  let ctx2 := snd (addUnqualifiedName blank2 ctx1 m chars count) in
  fst (addUnqualifiedName blank2 ctx1 m chars count) = i /\
  stringArena ctx2 = stringArena ctx1 /\
  ops ctx2 = ops ctx1 /\
  (forall k, k <> i -> find ctx2 k = find ctx1 k) /\
  (exists id1 id2,
     find ctx1 i = Some id1 /\ find ctx2 i = Some id2 /\
     text id2 = text id1 /\ textLength id2 = textLength id1 /\
     segmentCount id2 = segmentCount id1 /\ segments id2 = segments id1 /\
     segmentHash id2 = segmentHash id1 /\
     segmentHashes id1 = segmentHashes blank1 /\
     segmentHashes id2 = segmentHashes blank2) /\
  (segmentHashes blank2 = segmentHashes blank1 -> ctx2 = ctx1).
Proof.
  unfold addUnqualifiedName, addIdentifier, find.
  cbn [fst snd segmentCount segmentHash stringArena identifiers ops].
  rewrite N.eqb_refl.
  split; [reflexivity|]. split; [reflexivity|]. split; [reflexivity|].
  split; [|split].
  - intros k Hk. rewrite lookup_insert_ne by (intros Heq; apply Hk; now symmetry).
    reflexivity.
  - do 2 eexists. split; [apply lookup_insert_eq|]. split; [apply lookup_insert_eq|].
    cbn [text textLength segmentCount segments segmentHash segmentHashes].
    repeat split; reflexivity.
  - intros Hsame. rewrite Hsame. f_equal. apply insert_insert_eq.
Qed.

Lemma addUnqualifiedName_idempotent_witness :
  let m := storeBytes zeroMem 1000 abcdef in
  let other := {| text := 7; textLength := 7; segmentCount := 7;
                  segments := 7; segmentHashes := 0; segmentHash := 7 |} in
  let ctx1 := snd (addUnqualifiedName (hasher := fnv1a) zeroIdentifier newContext m 1000 8) in
  snd (addUnqualifiedName (hasher := fnv1a) other ctx1 m 1000 8) = ctx1 /\
  find (snd (addUnqualifiedName (hasher := fnv1a) other ctx1 m 1000 8)) 5 = find ctx1 5.
Proof.
  intros m other ctx1.
  destruct (addUnqualifiedName_idempotent (hasher := fnv1a) zeroIdentifier other
              newContext m 1000 8) as (_ & _ & _ & Hothers & _ & Hsame).
  split.
  - apply Hsame. reflexivity.
  - apply Hothers. intros Heq. vm_compute in Heq. discriminate Heq.
Defined.

(** * Storage the arena owns *)


Section ArenaOwnedText.
Context {hasher : Hasher} {heap : Malloc}.
Variable blankIdentifier : Identifier.


End ArenaOwnedText.







(** X19: the arena in [w]-bit arithmetic.  When no request exceeds
    [kChunkSize] and each chunk [malloc] can return during the run (one
    per call at most) ends more than [kChunkSize] bytes below [2^w], no
    pointer sum of a run of [Arena::alloc] on a new arena wraps: the calls
    return the ranges and reach the state computed without reduction
    modulo [2^w]. *)
Theorem allocsWord_in_size_agrees {heap : Malloc} (w : N) (sizes : list Size) :
  chunksDisjoint ->
  (forall k : nat, (k < length sizes)%nat -> malloc k + 2 * kChunkSize < 2 ^ w) ->
  Forall (fun s => s <= kChunkSize) sizes ->
  noWrap w newArena sizes /\
  allocsWord w newArena sizes = allocs newArena sizes.
Proof.
  intros Hchunks Htop Hsizes.
  assert (Hrun : noWrap w newArena sizes /\
                 (length (buffers (snd (allocs newArena sizes))) <= length sizes)%nat).
  { induction sizes as [|s sizes IH] using rev_ind.
    - split; [exact I|]. cbn. lia.
    - apply Forall_app in Hsizes. destruct Hsizes as [Hsizes Hs].
      apply Forall_inv in Hs. rewrite length_app in Htop. cbn [length] in Htop.
      destruct IH as [IH Hlen]; [intros k Hk; apply Htop; lia|exact Hsizes|].
      destruct (allocs_inv Hchunks sizes Hsizes) as [Hinv _].
      rewrite allocs_app. destruct (allocs newArena sizes) as [rs a] eqn:Ha.
      cbn [fst snd] in *. split.
      + apply (noWrap_app w). split; [exact IH|].
        rewrite (allocsWord_allocs w sizes newArena IH), Ha. cbn [snd].
        split; [|exact I].
        pose proof (Htop (length (buffers a)) ltac:(lia)) as Hnew.
        split; [|intros _; lia].
        destruct (length (buffers a)) as [|k] eqn:Hn.
        * destruct (inv_fresh _ _ Hinv Hn) as [-> _]. lia.
        * destruct (inv_current _ _ Hinv k Hn) as [Hmax Hbuf].
          pose proof (Htop k ltac:(lia)). lia.
      + cbn -[alloc]. pose proof (alloc_buffers a s) as Hb.
        destruct (alloc a s) as [p a1]. cbn [fst snd] in *.
        rewrite Hb, !length_app. destruct (max a <? buffer a + s); cbn [length]; lia. }
  destruct Hrun as [Hrun _].
  split; [exact Hrun|]. apply allocsWord_allocs. exact Hrun.
Qed.

Lemma allocsWord_in_size_agrees_witness :
  allocsWord (heap := packedChunks) 64 newArena [10; 4086; 1] =
    ([(65536, 10); (65546, 4086); (69632, 1)],
     {| buffer := 69633; max := 73728; buffers := [65536; 69632] |}).
Proof.
  assert (Hchunks : chunksDisjoint (heap := packedChunks)).
  { intros i j Hij. cbn. lia. }
  assert (Htop : forall k : nat, (k < 3)%nat ->
            malloc (Malloc := packedChunks) k + 2 * kChunkSize (Malloc := packedChunks)
              < 2 ^ 64).
  { intros k Hk. cbn. lia. }
  assert (Hsizes : Forall (fun s => s <= kChunkSize (Malloc := packedChunks)) [10; 4086; 1]).
  { repeat constructor; cbn; lia. }
  destruct (allocsWord_in_size_agrees (heap := packedChunks) 64 [10; 4086; 1]
              Hchunks Htop Hsizes) as [_ Hsame].
  rewrite Hsame. reflexivity.
Defined.
